(** * Salsa20/20 stream cipher: a shallow embedding of [Salsa20_FINAL.c]

    The C functions [rotl], [s20_quarterround], [s20_rowround],
    [s20_columnround], [s20_doubleround], [s20_littleendian],
    [s20_rev_littleendian], [s20_hash], [s20_expand32] and [s20_crypt] are
    translated one by one, keeping their names, their argument order and the
    order of their loads and stores.

    Conventions of the embedding.
    - A [uint32_t] or [uint8_t] value is a [Z]; every conversion to the
      unsigned type that C performs is written out ([u32], [u8]).
    - An array is a [list Z]; [a[i]] is [get a i] and [a[i] = v] is
      [set a i v].  An access outside the array is undefined behaviour in C;
      here a read outside gives 0 and a write outside does nothing, and the
      theorems carry the length hypotheses under which no such access occurs.
    - A pointer into an array is the array together with an offset: [ptr a k]
      is the read-only view [a + k], and [at_ptr a k f] runs a callee [f]
      that writes through [a + k].
    - The four pointers of [s20_quarterround] all point into one array of
      words in every call of the file; they are modelled as indices into
      that array, so that the order of the loads and stores is kept.
    - A [for] loop whose header is [for (i = a; i < b; i += k)] and whose body
      changes neither [i] nor [b] is [for_loop a b k body]. *)

From Stdlib Require Import ZArith Lia List Ascii String.
From stdpp Require Import base list.

Local Open Scope Z_scope.

(** ** Machine integers and arrays *)

Definition u32 (z : Z) : Z := z mod 2 ^ 32.
Definition u8 (z : Z) : Z := z mod 2 ^ 8.

Definition get {A} `{Inhabited A} (a : list A) (i : Z) : A := a !!! Z.to_nat i.
Definition set {A} (a : list A) (i : Z) (v : A) : list A := <[Z.to_nat i := v]> a.

Definition ptr {A} (a : list A) (off : Z) : list A := drop (Z.to_nat off) a.
Definition at_ptr {A} (a : list A) (off : Z) (f : list A -> list A) : list A :=
  take (Z.to_nat off) a ++ f (drop (Z.to_nat off) a).

(** ** Counted loops *)

Fixpoint iter_from {S} (count : nat) (i step : Z) (body : Z -> S -> S) (s : S) : S :=
  match count with
  | O => s
  | Datatypes.S c => iter_from c (i + step) step body (body i s)
  end.

(** [for (i = a; i < b; i += k) body]: the body runs for
    [i = a, a + k, ...] while [i < b], that is [ceil ((b - a) / k)] times. *)
Definition for_loop {S} (a b k : Z) (body : Z -> S -> S) (s : S) : S :=
  iter_from (Z.to_nat ((b - a + k - 1) / k)) a k body s.

(** ** The cipher *)

(** [static uint32_t rotl(uint32_t value, int shift)] *)
Definition rotl (value shift : Z) : Z :=
  Z.lor (u32 (Z.shiftl value shift)) (Z.shiftr value (32 - shift)).

(** [static void s20_quarterround(uint32_t *y0, uint32_t *y1, uint32_t *y2, uint32_t *y3)];
    [y0 .. y3] are the positions the four pointers have in the array [m]. *)
Definition s20_quarterround (y0 y1 y2 y3 : Z) (m : list Z) : list Z :=
  let m := set m y1 (Z.lxor (get m y1) (rotl (u32 (get m y0 + get m y3)) 7)) in
  let m := set m y2 (Z.lxor (get m y2) (rotl (u32 (get m y1 + get m y0)) 9)) in
  let m := set m y3 (Z.lxor (get m y3) (rotl (u32 (get m y2 + get m y1)) 13)) in
  let m := set m y0 (Z.lxor (get m y0) (rotl (u32 (get m y3 + get m y2)) 18)) in
  m.

(** [static void s20_rowround(uint32_t y[16])] *)
Definition s20_rowround (y : list Z) : list Z :=
  let y := s20_quarterround 0 1 2 3 y in
  let y := s20_quarterround 5 6 7 4 y in
  let y := s20_quarterround 10 11 8 9 y in
  let y := s20_quarterround 15 12 13 14 y in
  y.

(** [static void s20_columnround(uint32_t x[16])] *)
Definition s20_columnround (x : list Z) : list Z :=
  let x := s20_quarterround 0 4 8 12 x in
  let x := s20_quarterround 5 9 13 1 x in
  let x := s20_quarterround 10 14 2 6 x in
  let x := s20_quarterround 15 3 7 11 x in
  x.

(** [static void s20_doubleround(uint32_t x[16])] *)
Definition s20_doubleround (x : list Z) : list Z :=
  let x := s20_columnround x in
  let x := s20_rowround x in
  x.

(** [static uint32_t s20_littleendian(uint8_t *b)].  The casts widen to
    [uint_fast16_t] and [uint_fast32_t]; the sum is below [2 ^ 32] for bytes,
    so the only conversion that can matter is the one to the return type. *)
Definition s20_littleendian (b : list Z) : Z :=
  u32 (get b 0 + Z.shiftl (get b 1) 8 + Z.shiftl (get b 2) 16 + Z.shiftl (get b 3) 24).

(** [static void s20_rev_littleendian(uint8_t *b, uint32_t w)] *)
Definition s20_rev_littleendian (b : list Z) (w : Z) : list Z :=
  let b := set b 0 (u8 w) in
  let b := set b 1 (u8 (Z.shiftr w 8)) in
  let b := set b 2 (u8 (Z.shiftr w 16)) in
  let b := set b 3 (u8 (Z.shiftr w 24)) in
  b.

(** [static void s20_hash(uint8_t seq[64])].  The automatic arrays [x] and
    [z] are not initialised by the C code; [s20_hash_from] takes what they
    hold on entry, and [s20_hash] fixes it to zeros. *)
Definition s20_hash_from (x z : list Z) (seq : list Z) : list Z :=
  let '(x, z) :=
    for_loop 0 16 1 (fun i '(x, z) =>
      let z := set z i (s20_littleendian (ptr seq (4 * i))) in
      let x := set x i (get z i) in
      (x, z)) (x, z) in
  let z := for_loop 0 10 1 (fun _ z => s20_doubleround z) z in
  let '(z, seq) :=
    for_loop 0 16 1 (fun i '(z, seq) =>
      let z := set z i (u32 (get z i + get x i)) in
      let seq := at_ptr seq (4 * i) (fun b => s20_rev_littleendian b (get z i)) in
      (z, seq)) (z, seq) in
  seq.

Definition s20_hash (seq : list Z) : list Z :=
  s20_hash_from (replicate 16 0) (replicate 16 0) seq.

(** A character constant, as the integer C gives it. *)
Definition ch (c : ascii) : Z := Z.of_N (N_of_ascii c).

(** [uint8_t o[4][4]], the constant "expand 32-byte k". *)
Definition o : list (list Z) :=
  [ [ ch "e"; ch "x"; ch "p"; ch "a" ];
    [ ch "n"; ch "d"; ch " "; ch "3" ];
    [ ch "2"; ch "-"; ch "b"; ch "y" ];
    [ ch "t"; ch "e"; ch " "; ch "k" ] ].

(** [static void s20_expand32(uint8_t *k, uint8_t n[16], uint8_t keystream[64])];
    returns the new contents of [keystream]. *)
Definition s20_expand32 (k n keystream : list Z) : list Z :=
  let keystream :=
    for_loop 0 64 20 (fun i keystream =>
      for_loop 0 4 1 (fun j keystream =>
        set keystream (i + j) (get (get o (Z.quot i 20)) j)) keystream) keystream in
  let keystream :=
    for_loop 0 16 1 (fun i keystream =>
      let keystream := set keystream (4 + i) (get k i) in
      let keystream := set keystream (44 + i) (get k (i + 16)) in
      let keystream := set keystream (24 + i) (get n i) in
      keystream) keystream in
  s20_hash keystream.

(** [void s20_crypt(uint8_t *key, uint8_t nonce[8], uint32_t si, uint8_t *buf, uint32_t buflen)].

    The three pointers come from the caller and may point anywhere, so they
    are addresses into the caller's memory [mem], a list of bytes; the
    function returns the memory it leaves.  [keystream] and [n] are automatic
    arrays of the call.  [keystream] is not initialised by the C code:
    [s20_crypt_from] takes what it holds on entry.

    [s20_crypt_step] is the body of the main loop, on the triple of the
    arrays it can change.  The index [i] is a [uint32_t] below [buflen], so
    [++i] does not wrap; [si + i] can, hence the [u32]. *)
Definition s20_crypt_step (key si buf : Z) (i : Z)
    (st : list Z * list Z * list Z) : list Z * list Z * list Z :=
  let '(n, keystream, mem) := st in
  let '(n, keystream) :=
    if i mod 64 =? 0 then
      let n := at_ptr n 8 (fun b => s20_rev_littleendian b (i / 64)) in
      let keystream := s20_expand32 (ptr mem key) n keystream in
      (n, keystream)
    else (n, keystream) in
  let mem :=
    set mem (buf + i)
      (u8 (Z.lxor (get mem (buf + i)) (get keystream (u32 (si + i) mod 64)))) in
  (n, keystream, mem).

Definition s20_crypt_init (nonce : Z) (mem : list Z) : list Z :=
  let n := replicate 16 0 in
  let n := for_loop 0 8 1 (fun i n => set n i (get mem (nonce + i))) n in
  n.

Definition s20_crypt_from (keystream : list Z)
    (key nonce si buf buflen : Z) (mem : list Z) : list Z :=
  let n := s20_crypt_init nonce mem in
  let '(n, keystream, mem) :=
    for_loop 0 buflen 1 (s20_crypt_step key si buf) (n, keystream, mem) in
  mem.

Definition s20_crypt (key nonce si buf buflen : Z) (mem : list Z) : list Z :=
  s20_crypt_from (replicate 64 0) key nonce si buf buflen mem.

(** ** The specification's vocabulary

    Definitions that follow the words of the specification; the theorems
    below compare the functions above with them. *)

Module Spec.

Definition word (w : Z) : Prop := 0 <= w < 2 ^ 32.
Definition byte (b : Z) : Prop := 0 <= b < 2 ^ 8.
Definition bytes (l : list Z) : Prop := Forall byte l.
Definition words (l : list Z) : Prop := Forall word l.

(** Addition modulo [2 ^ 32]. *)
Definition add32 (a b : Z) : Z := (a + b) mod 2 ^ 32.

(** The number whose binary digits are [l], least significant first. *)
Fixpoint of_bits (l : list bool) : Z :=
  match l with
  | [] => 0
  | b :: l => Z.b2z b + 2 * of_bits l
  end.

(** Left circular rotation of a 32-bit word: bit [i] of the result is bit
    [i - s] of [v], the position counted modulo 32. *)
Definition rotl32 (v s : Z) : Z :=
  of_bits (map (fun i : nat => Z.testbit v ((Z.of_nat i - s) mod 32)) (seq 0 32)).

(** Quarter-Round on four words. *)
Definition quarterround (y : Z * Z * Z * Z) : Z * Z * Z * Z :=
  let '(y0, y1, y2, y3) := y in
  let z1 := Z.lxor y1 (rotl32 (add32 y0 y3) 7) in
  let z2 := Z.lxor y2 (rotl32 (add32 z1 y0) 9) in
  let z3 := Z.lxor y3 (rotl32 (add32 z2 z1) 13) in
  let z0 := Z.lxor y0 (rotl32 (add32 z3 z2) 18) in
  (z0, z1, z2, z3).

(** Quarter-Round applied to the words a state holds at four indices. *)
Definition quarterround_on (a b c d : nat) (st : list Z) : list Z :=
  let '(z0, z1, z2, z3) := quarterround (st !!! a, st !!! b, st !!! c, st !!! d) in
  <[a := z0]> (<[b := z1]> (<[c := z2]> (<[d := z3]> st))).

(** A 32-bit word from, and to, its four bytes in little-endian order. *)
Definition word_of_bytes (b0 b1 b2 b3 : Z) : Z :=
  b0 + 2 ^ 8 * b1 + 2 ^ 16 * b2 + 2 ^ 24 * b3.

Definition bytes_of_word (w : Z) : list Z :=
  [ w mod 2 ^ 8; (w / 2 ^ 8) mod 2 ^ 8; (w / 2 ^ 16) mod 2 ^ 8; (w / 2 ^ 24) mod 2 ^ 8 ].

Fixpoint words_of_bytes (l : list Z) : list Z :=
  match l with
  | b0 :: b1 :: b2 :: b3 :: l => word_of_bytes b0 b1 b2 b3 :: words_of_bytes l
  | _ => []
  end.

Definition bytes_of_words (ws : list Z) : list Z := concat (map bytes_of_word ws).

(** The bytes of an ASCII string. *)
Definition bytes_of_string (s : string) : list Z :=
  map (fun c => Z.of_N (N_of_ascii c)) (list_ascii_of_string s).

(** The 16-byte input field of Block Expansion for a nonce and a block
    counter: the nonce, the counter in the low 4 bytes of the counter half,
    little-endian, and 4 zero bytes. *)
Definition input_field (nonce : list Z) (counter : Z) : list Z :=
  nonce ++ bytes_of_word counter ++ [0; 0; 0; 0].

(** The 64-byte state Block Expansion hands to the Core Hash. *)
Definition prehash (k n : list Z) : list Z :=
  bytes_of_string "expa" ++ take 16 k ++
  bytes_of_string "nd 3" ++ n ++
  bytes_of_string "2-by" ++ drop 16 k ++
  bytes_of_string "te k".

(** The value of a hexadecimal digit, and the bytes a hexadecimal string
    writes. *)
Definition hex_digit (c : ascii) : Z :=
  let n := Z.of_N (N_of_ascii c) in
  if (48 <=? n) && (n <=? 57) then n - 48
  else if (65 <=? n) && (n <=? 70) then n - 55
  else if (97 <=? n) && (n <=? 102) then n - 87
  else 0.

Fixpoint bytes_of_hex (s : string) : list Z :=
  match s with
  | String hi (String lo s) => (16 * hex_digit hi + hex_digit lo) :: bytes_of_hex s
  | _ => []
  end.

End Spec.

(** The region [a, a + la) lies apart from the region [b, b + lb). *)
Definition apart (a la b lb : Z) : Prop := a + la <= b \/ b + lb <= a.

(** What a call [s20_crypt(key, nonce, si, buf, buflen)] needs from the
    caller's memory: 32 readable bytes at [key], 8 at [nonce], [buflen]
    writable bytes at [buf] that overlap neither, and 32-bit [si] and
    [buflen]. *)
Record valid_call (key nonce si buf buflen : Z) (mem : list Z) : Prop := {
  vc_bytes : Spec.bytes mem;
  vc_key : 0 <= key /\ key + 32 <= Z.of_nat (length mem);
  vc_nonce : 0 <= nonce /\ nonce + 8 <= Z.of_nat (length mem);
  vc_buf : 0 <= buf /\ buf + buflen <= Z.of_nat (length mem);
  vc_buflen : 0 <= buflen < 2 ^ 32;
  vc_si : 0 <= si < 2 ^ 32;
  vc_key_buf : apart key 32 buf buflen;
  vc_nonce_buf : apart nonce 8 buf buflen
}.

(** The key and the nonce a call reads. *)
Definition key_of (key : Z) (mem : list Z) : list Z := take 32 (ptr mem key).
Definition nonce_of (nonce : Z) (mem : list Z) : list Z := take 8 (ptr mem nonce).

(** The keystream block of a key, a nonce and a block counter: Block
    Expansion of the key and of the input field of the nonce and counter. *)
Definition keystream_block (key nonce : list Z) (counter : Z) : list Z :=
  s20_expand32 key (Spec.input_field nonce counter) (replicate 64 0).

(** The state of the main loop of [s20_crypt] when [i] bytes are done,
    started on the memory [mem0]: the memory differs from [mem0] in the
    first [i] bytes of the buffer only, each xored with its keystream byte;
    [n] and [keystream] hold the input field and the block of the last
    counter used. *)
Record crypt_inv (key nonce si buf : Z) (mem0 : list Z) (i : Z)
    (st : list Z * list Z * list Z) : Prop := {
  ci_length : length (st.2) = length mem0;
  ci_bytes : Spec.bytes (st.2);
  ci_frame : forall a, 0 <= a -> ~ (buf <= a < buf + i) -> get (st.2) a = get mem0 a;
  ci_done : forall j, 0 <= j < i ->
    get (st.2) (buf + j) =
    Z.lxor (get mem0 (buf + j))
      (get (keystream_block (key_of key mem0) (nonce_of nonce mem0) (j / 64))
           ((si + j) mod 64));
  ci_block :
    if i =? 0 then
      st.1.1 = nonce_of nonce mem0 ++ replicate 8 0 /\ length (st.1.2) = 64%nat
    else
      st.1.1 = Spec.input_field (nonce_of nonce mem0) ((i - 1) / 64) /\
      st.1.2 = keystream_block (key_of key mem0) (nonce_of nonce mem0) ((i - 1) / 64)
}.

(** A caller's memory for examples: the key of the first published test
    vector at address 0, a zero nonce at address 32, and a buffer of 70
    bytes at address 40. *)
Definition example_key : list Z := 128 :: replicate 31 0.
Definition example_nonce : list Z := replicate 8 0.
Definition example_buf : list Z := map (fun i => (7 * i + 3) mod 256) (seqZ 0 70).
Definition example_mem : list Z := example_key ++ example_nonce ++ example_buf.

(** Four pairwise different positions. *)
Definition distinct4 (a b c d : nat) : Prop :=
  a <> b /\ a <> c /\ a <> d /\ b <> c /\ b <> d /\ c <> d.

(** ** The demonstration program

    [int main()].  [scanf] is not modelled: [Str] is what the array
    [char Str[1000]] holds once [scanf] has stored the line and the zero that
    ends it.  The calls of [printf] are recorded in the order they are made.
    [key], [nonce] and [buff] are three objects of [main]; in the memory
    handed to [s20_crypt] they lie one after the other, at addresses 0, 32
    and 40. *)

(** What a call of [printf] writes: a literal text, a byte through ["%u "],
    a byte through ["%c"]. *)
Inductive output : Type :=
  | Text (s : string)
  | Unsigned (v : Z)
  | Char (c : Z).

(** [strlen]: the number of chars before the first zero. *)
Fixpoint strlen (s : list Z) : Z :=
  match s with
  | [] => 0
  | c :: s => if c =? 0 then 0 else 1 + strlen s
  end.

Definition main (Str : list Z) : list output :=
  let key := [8; 0; 0; 0; 0; 0; 0; 0;
              0; 0; 0; 0; 0; 0; 0; 0;
              0; 0; 0; 0; 0; 0; 0; 0;
              0; 0; 0; 0; 0; 0; 0; 0] in
  let nonce := [0; 0; 0; 0; 0; 0; 0; 0] in
  let si := 0 in
  let out := [Text "Enter your message: "] in
  let bufflen := u32 (strlen Str) in
  let buff := replicate (Z.to_nat bufflen) 0 in
  let buff := for_loop 0 bufflen 1 (fun i buff => set buff i (u8 (get Str i))) buff in
  let mem := key ++ nonce ++ buff in
  let mem := s20_crypt 0 32 si 40 bufflen mem in
  let out := out ++ [Text "Encrypted message: "] in
  let out := for_loop 0 bufflen 1 (fun i out => out ++ [Unsigned (get mem (40 + i))]) out in
  let mem := s20_crypt 0 32 si 40 bufflen mem in
  let out := out ++ [Text (String "010" "Decrypted message: ")] in
  let out := for_loop 0 bufflen 1 (fun i out => out ++ [Char (get mem (40 + i))]) out in
  let out := out ++ [Text (String "010" EmptyString)] in
  out.

(** The key of [main]. *)
Definition main_key : list Z := 8 :: replicate 31 0.

(** ** Devices for the further properties *)

(** A function on four words, applied to the words a state holds at four
    indices. *)
Definition on4 (f : Z * Z * Z * Z -> Z * Z * Z * Z) (a b c d : nat)
    (st : list Z) : list Z :=
  let '(z0, z1, z2, z3) := f (st !!! a, st !!! b, st !!! c, st !!! d) in
  <[a := z0]> (<[b := z1]> (<[c := z2]> (<[d := z3]> st))).

(** The four steps of Quarter-Round undone, the last step first.  The source
    has no such function; it serves to show that Quarter-Round loses
    nothing. *)
Definition quarterround_undo (z : Z * Z * Z * Z) : Z * Z * Z * Z :=
  let '(z0, z1, z2, z3) := z in
  let y0 := Z.lxor z0 (Spec.rotl32 (Spec.add32 z3 z2) 18) in
  let y3 := Z.lxor z3 (Spec.rotl32 (Spec.add32 z2 z1) 13) in
  let y2 := Z.lxor z2 (Spec.rotl32 (Spec.add32 z1 y0) 9) in
  let y1 := Z.lxor z1 (Spec.rotl32 (Spec.add32 y0 y3) 7) in
  (y0, y1, y2, y3).

(** A 16-word state read as a 4 x 4 matrix, row by row, and transposed. *)
Definition transpose (st : list Z) : list Z :=
  map (fun i : nat => st !!! i)
    [0; 4; 8; 12; 1; 5; 9; 13; 2; 6; 10; 14; 3; 7; 11; 15]%nat.

(** ** Arrays *)

Lemma length_set {A} (a : list A) i v : length (set a i v) = length a.
Proof. apply length_insert. Qed.

Lemma get_set_eq {A} `{Inhabited A} (a : list A) i v :
  (Z.to_nat i < length a)%nat -> get (set a i v) i = v.
Proof. intros Hi. unfold get, set. by apply list_lookup_total_insert_eq. Qed.

Lemma get_set_ne {A} `{Inhabited A} (a : list A) i j v :
  0 <= i -> 0 <= j -> i <> j -> get (set a i v) j = get a j.
Proof.
  intros Hi Hj Hne. unfold get, set.
  apply list_lookup_total_insert_ne. lia.
Qed.

Lemma get_ptr {A} `{Inhabited A} (a : list A) off i :
  0 <= off -> 0 <= i -> get (ptr a off) i = get a (off + i).
Proof.
  intros Ho Hi. unfold get, ptr.
  rewrite lookup_total_drop. f_equal. lia.
Qed.

Lemma list_eq_get {A} `{Inhabited A} (a b : list A) :
  length a = length b ->
  (forall i, 0 <= i < Z.of_nat (length a) -> get a i = get b i) ->
  a = b.
Proof.
  intros Hlen Hget. apply list_eq_same_length with (length a); try done.
  intros i x y Hi Hx Hy.
  specialize (Hget (Z.of_nat i) ltac:(lia)). unfold get in Hget.
  rewrite Nat2Z.id in Hget.
  rewrite (list_lookup_total_correct _ _ _ Hx) in Hget.
  rewrite (list_lookup_total_correct _ _ _ Hy) in Hget. done.
Qed.

(** ** Loops *)

Lemma for_loop_unfold {S} (a b k : Z) (body : Z -> S -> S) (s : S) :
  0 < k ->
  for_loop a b k body s =
  if a <? b then for_loop (a + k) b k body (body a s) else s.
Proof.
  intros Hk. unfold for_loop. destruct (Z.ltb_spec a b) as [Hab | Hab].
  - replace (Z.to_nat ((b - a + k - 1) / k))
      with (Datatypes.S (Z.to_nat ((b - (a + k) + k - 1) / k))); [done |].
    replace (b - a + k - 1) with ((b - (a + k) + k - 1) + 1 * k) by lia.
    rewrite Z.div_add by lia.
    assert (0 <= (b - (a + k) + k - 1) / k) by (apply Z.div_pos; lia).
    lia.
  - replace (Z.to_nat ((b - a + k - 1) / k)) with O; [done |].
    assert ((b - a + k - 1) / k <= 0); [| lia].
    destruct (Z.eq_dec a b) as [-> | Hne].
    + rewrite Z.div_small; lia.
    + assert ((b - a + k - 1) / k < 1); [| lia].
      apply Z.div_lt_upper_bound; lia.
Qed.

Lemma for_loop_count {S} (n : Z) (body : Z -> S -> S) (s : S) :
  for_loop 0 n 1 body s = iter_from (Z.to_nat n) 0 1 body s.
Proof. unfold for_loop. do 2 f_equal. rewrite Z.div_1_r. lia. Qed.

Lemma iter_from_snoc {S} (c : nat) (i : Z) (body : Z -> S -> S) (s : S) :
  iter_from (Datatypes.S c) i 1 body s =
  body (i + Z.of_nat c) (iter_from c i 1 body s).
Proof.
  revert i s. induction c as [| c IH]; intros i s.
  - simpl. f_equal. lia.
  - change (iter_from (Datatypes.S (Datatypes.S c)) i 1 body s)
      with (iter_from (Datatypes.S c) (i + 1) 1 body (body i s)).
    rewrite IH. simpl. f_equal. lia.
Qed.

Lemma for_loop_snoc {S} (n : Z) (body : Z -> S -> S) (s : S) :
  0 <= n ->
  for_loop 0 (n + 1) 1 body s = body n (for_loop 0 n 1 body s).
Proof.
  intros Hn. rewrite !for_loop_count.
  replace (Z.to_nat (n + 1)) with (Datatypes.S (Z.to_nat n)) by lia.
  rewrite iter_from_snoc. f_equal. lia.
Qed.

Lemma for_loop_ten {S} (f : S -> S) (s : S) :
  for_loop 0 10 1 (fun _ z => f z) s = Nat.iter 10 f s.
Proof. reflexivity. Qed.

(** The invariant rule of a loop [for (i = 0; i < n; ++i)]. *)
Lemma for_loop_inv {S} (P : Z -> S -> Prop) (n : Z) (body : Z -> S -> S) (s : S) :
  0 <= n ->
  P 0 s ->
  (forall i s, 0 <= i < n -> P i s -> P (i + 1) (body i s)) ->
  P n (for_loop 0 n 1 body s).
Proof.
  intros Hn H0 Hstep.
  assert (forall c : nat, Z.of_nat c <= n ->
            P (Z.of_nat c) (for_loop 0 (Z.of_nat c) 1 body s)) as Hall.
  { induction c as [| c IH]; intros Hc.
    - exact H0.
    - rewrite Nat2Z.inj_succ, <- Z.add_1_r, for_loop_snoc by lia.
      apply Hstep; [lia |]. apply IH. lia. }
  specialize (Hall (Z.to_nat n)). rewrite Z2Nat.id in Hall by lia.
  apply Hall. lia.
Qed.

(** ** Words and bytes *)

Lemma u32_word z : Spec.word (u32 z).
Proof. unfold Spec.word, u32. apply Z.mod_pos_bound. lia. Qed.

Lemma u8_byte z : Spec.byte (u8 z).
Proof. unfold Spec.byte, u8. apply Z.mod_pos_bound. lia. Qed.

Lemma u32_of_word w : Spec.word w -> u32 w = w.
Proof. intros Hw. apply Z.mod_small. exact Hw. Qed.

Lemma u8_of_byte b : Spec.byte b -> u8 b = b.
Proof. intros Hb. apply Z.mod_small. exact Hb. Qed.

Lemma testbit_above (n v i : Z) :
  0 <= v < 2 ^ n -> 0 <= n <= i -> Z.testbit v i = false.
Proof.
  intros Hv Hi. rewrite <- (Z.mod_small v (2 ^ n)) by lia.
  apply Z.mod_pow2_bits_high. lia.
Qed.

Lemma below_pow2 (n v : Z) :
  0 <= n -> 0 <= v ->
  (forall i, n <= i -> Z.testbit v i = false) -> v < 2 ^ n.
Proof.
  intros Hn Hv Hbits.
  destruct (Z.eq_dec v 0) as [-> | Hne]; [apply Z.pow_pos_nonneg; lia |].
  apply Z.log2_lt_pow2; [lia |].
  destruct (Z.lt_ge_cases (Z.log2 v) n) as [Hlt | Hge]; [done |].
  specialize (Hbits _ Hge). rewrite Z.bit_log2 in Hbits by lia. done.
Qed.

Lemma lxor_below (n a b : Z) :
  0 <= n -> 0 <= a < 2 ^ n -> 0 <= b < 2 ^ n -> 0 <= Z.lxor a b < 2 ^ n.
Proof.
  intros Hn Ha Hb.
  assert (0 <= Z.lxor a b) as Hnn by (apply Z.lxor_nonneg; lia).
  split; [done |]. apply below_pow2; try done.
  intros i Hi. rewrite Z.lxor_spec.
  rewrite (testbit_above n a), (testbit_above n b) by lia. done.
Qed.

Lemma lor_below (n a b : Z) :
  0 <= n -> 0 <= a < 2 ^ n -> 0 <= b < 2 ^ n -> 0 <= Z.lor a b < 2 ^ n.
Proof.
  intros Hn Ha Hb.
  assert (0 <= Z.lor a b) as Hnn by (apply Z.lor_nonneg; lia).
  split; [done |]. apply below_pow2; try done.
  intros i Hi. rewrite Z.lor_spec.
  rewrite (testbit_above n a), (testbit_above n b) by lia. done.
Qed.

Lemma lxor_word a b : Spec.word a -> Spec.word b -> Spec.word (Z.lxor a b).
Proof. apply lxor_below. lia. Qed.

Lemma lxor_byte a b : Spec.byte a -> Spec.byte b -> Spec.byte (Z.lxor a b).
Proof. apply lxor_below. lia. Qed.

Create HintDb s20 discriminated.
#[local] Hint Resolve u32_word u8_byte lxor_word lxor_byte : s20.

Lemma lxor_cancel a k : Z.lxor (Z.lxor a k) k = a.
Proof. rewrite Z.lxor_assoc, Z.lxor_nilpotent. apply Z.lxor_0_r. Qed.

(** *** Rotation *)

Lemma testbit_of_bits (l : list bool) (i : nat) :
  Z.testbit (Spec.of_bits l) (Z.of_nat i) = nth i l false.
Proof.
  revert i. induction l as [| b l IH]; intros i.
  - simpl. rewrite Z.testbit_0_l. by destruct i.
  - cbn [Spec.of_bits]. rewrite Z.add_comm. destruct i as [| i].
    + apply Z.testbit_0_r.
    + rewrite Nat2Z.inj_succ, Z.testbit_succ_r by lia. apply IH.
Qed.

Lemma of_bits_range (l : list bool) :
  0 <= Spec.of_bits l < 2 ^ Z.of_nat (length l).
Proof.
  induction l as [| b l IH].
  - simpl. lia.
  - cbn [Spec.of_bits length]. rewrite Nat2Z.inj_succ, Z.pow_succ_r by lia.
    destruct b; simpl Z.b2z; lia.
Qed.

Lemma rotl32_word v s : Spec.word (Spec.rotl32 v s).
Proof.
  unfold Spec.word, Spec.rotl32.
  match goal with |- 0 <= Spec.of_bits ?l < _ =>
    pose proof (of_bits_range l) as Hr; rewrite length_map, length_seq in Hr
  end.
  exact Hr.
Qed.

Lemma testbit_rotl32 v s (i : Z) :
  0 <= i < 32 ->
  Z.testbit (Spec.rotl32 v s) i = Z.testbit v ((i - s) mod 32).
Proof.
  intros Hi. unfold Spec.rotl32.
  rewrite <- (Z2Nat.id i) at 1 by lia. rewrite testbit_of_bits.
  rewrite nth_indep with (d' := Z.testbit v ((Z.of_nat 0 - s) mod 32))
    by (rewrite length_map, length_seq; lia).
  rewrite (map_nth (fun i : nat => Z.testbit v ((Z.of_nat i - s) mod 32))).
  rewrite seq_nth by lia. simpl Nat.add. rewrite Z2Nat.id by lia. done.
Qed.

(** The shift-and-or of [rotl] is the left circular rotation. *)
Lemma rotl_rotl32 v s :
  Spec.word v -> 0 < s < 32 -> rotl v s = Spec.rotl32 v s.
Proof.
  intros Hv Hs. apply Z.bits_inj'. intros i Hi.
  unfold rotl, u32. rewrite Z.lor_spec, Z.testbit_mod_pow2 by lia.
  rewrite Z.shiftl_spec, Z.shiftr_spec by lia.
  destruct (Z.ltb_spec i 32) as [Hlt | Hge].
  - rewrite testbit_rotl32 by lia. destruct (Z.lt_ge_cases i s) as [Hlo | Hhi].
    + rewrite (Z.testbit_neg_r v (i - s)) by lia. simpl.
      f_equal. apply Z.mod_unique with (-1); lia.
    + rewrite (testbit_above 32 v (i + (32 - s))) by (unfold Spec.word in Hv; lia).
      rewrite orb_false_r. simpl. f_equal. symmetry. apply Z.mod_small. lia.
  - simpl. rewrite (testbit_above 32 v (i + (32 - s))) by (unfold Spec.word in Hv; lia).
    symmetry. apply (testbit_above 32); [apply rotl32_word | lia].
Qed.

Lemma rotl_word v s : Spec.word v -> 0 < s < 32 -> Spec.word (rotl v s).
Proof. intros Hv Hs. rewrite rotl_rotl32 by done. apply rotl32_word. Qed.

#[local] Hint Resolve rotl32_word : s20.

(** *** Little-endian words *)

Lemma bytes_of_word_shift (w : Z) :
  [u8 w; u8 (Z.shiftr w 8); u8 (Z.shiftr w 16); u8 (Z.shiftr w 24)] =
  Spec.bytes_of_word w.
Proof. unfold Spec.bytes_of_word, u8. by rewrite !Z.shiftr_div_pow2 by lia. Qed.

Lemma word_of_bytes_word b0 b1 b2 b3 :
  Spec.byte b0 -> Spec.byte b1 -> Spec.byte b2 -> Spec.byte b3 ->
  Spec.word (Spec.word_of_bytes b0 b1 b2 b3).
Proof. unfold Spec.byte, Spec.word, Spec.word_of_bytes. lia. Qed.

Lemma word_of_bytes_of_word (w : Z) :
  Spec.word w ->
  Spec.word_of_bytes (w mod 2 ^ 8) ((w / 2 ^ 8) mod 2 ^ 8)
    ((w / 2 ^ 16) mod 2 ^ 8) ((w / 2 ^ 24) mod 2 ^ 8) = w.
Proof.
  unfold Spec.word, Spec.word_of_bytes. intros Hw.
  change (2 ^ 8) with 256. change (2 ^ 16) with 65536.
  change (2 ^ 24) with 16777216. change (2 ^ 32) with 4294967296 in Hw.
  Z.div_mod_to_equations. lia.
Qed.

Lemma s20_littleendian_cons b0 b1 b2 b3 (l : list Z) :
  s20_littleendian (b0 :: b1 :: b2 :: b3 :: l) =
  u32 (Spec.word_of_bytes b0 b1 b2 b3).
Proof.
  unfold s20_littleendian, Spec.word_of_bytes.
  change (get (b0 :: b1 :: b2 :: b3 :: l) 0) with b0.
  change (get (b0 :: b1 :: b2 :: b3 :: l) 1) with b1.
  change (get (b0 :: b1 :: b2 :: b3 :: l) 2) with b2.
  change (get (b0 :: b1 :: b2 :: b3 :: l) 3) with b3.
  rewrite !Z.shiftl_mul_pow2 by lia. f_equal. lia.
Qed.

Lemma s20_rev_littleendian_cons b0 b1 b2 b3 (l : list Z) w :
  s20_rev_littleendian (b0 :: b1 :: b2 :: b3 :: l) w = Spec.bytes_of_word w ++ l.
Proof. rewrite <- bytes_of_word_shift. reflexivity. Qed.

(** ** Quarter-Round and the rounds *)

Ltac get_set :=
  repeat first
    [ rewrite get_set_ne by lia
    | rewrite get_set_eq by (rewrite ?length_set, ?Nat2Z.id; lia) ].

Lemma length_quarterround_on a b c d (st : list Z) :
  length (Spec.quarterround_on a b c d st) = length st.
Proof.
  unfold Spec.quarterround_on.
  destruct (Spec.quarterround _) as [[[z0 z1] z2] z3].
  by rewrite !length_insert.
Qed.

(** Through four pointers to distinct words of one array, the loads and
    stores of [s20_quarterround] amount to Quarter-Round on the four words. *)
Lemma s20_quarterround_on (a b c d : nat) (st : list Z) :
  distinct4 a b c d ->
  (a < length st)%nat -> (b < length st)%nat ->
  (c < length st)%nat -> (d < length st)%nat ->
  s20_quarterround (Z.of_nat a) (Z.of_nat b) (Z.of_nat c) (Z.of_nat d) st =
  Spec.quarterround_on a b c d st.
Proof.
  intros (Hab & Hac & Had & Hbc & Hbd & Hcd) Ha Hb Hc Hd.
  unfold s20_quarterround, Spec.quarterround_on, Spec.quarterround.
  cbv zeta. get_set.
  rewrite !rotl_rotl32 by (try apply u32_word; lia).
  unfold set, get, Spec.add32, u32. rewrite !Nat2Z.id.
  rewrite (list_insert_insert_ne _ d c) by done.
  rewrite (list_insert_insert_ne _ d b) by done.
  rewrite (list_insert_insert_ne _ c b) by done.
  reflexivity.
Qed.

Lemma quarterround_words (y0 y1 y2 y3 : Z) :
  Spec.word y0 -> Spec.word y1 -> Spec.word y2 -> Spec.word y3 ->
  let '(z0, z1, z2, z3) := Spec.quarterround (y0, y1, y2, y3) in
  Spec.word z0 /\ Spec.word z1 /\ Spec.word z2 /\ Spec.word z3.
Proof.
  intros H0 H1 H2 H3. unfold Spec.quarterround. cbv zeta.
  split; [| split; [| split]]; auto with s20.
Qed.

Lemma s20_rowround_on (st : list Z) :
  length st = 16%nat ->
  s20_rowround st =
    Spec.quarterround_on 15 12 13 14
      (Spec.quarterround_on 10 11 8 9
        (Spec.quarterround_on 5 6 7 4
          (Spec.quarterround_on 0 1 2 3 st))).
Proof.
  intros Hlen. unfold s20_rowround. cbv zeta.
  rewrite (s20_quarterround_on 0 1 2 3)
    by (rewrite ?Hlen; unfold distinct4; lia).
  rewrite (s20_quarterround_on 5 6 7 4)
    by (rewrite ?length_quarterround_on, ?Hlen; unfold distinct4; lia).
  rewrite (s20_quarterround_on 10 11 8 9)
    by (rewrite ?length_quarterround_on, ?Hlen; unfold distinct4; lia).
  rewrite (s20_quarterround_on 15 12 13 14)
    by (rewrite ?length_quarterround_on, ?Hlen; unfold distinct4; lia).
  reflexivity.
Qed.

Lemma s20_columnround_on (st : list Z) :
  length st = 16%nat ->
  s20_columnround st =
    Spec.quarterround_on 15 3 7 11
      (Spec.quarterround_on 10 14 2 6
        (Spec.quarterround_on 5 9 13 1
          (Spec.quarterround_on 0 4 8 12 st))).
Proof.
  intros Hlen. unfold s20_columnround. cbv zeta.
  rewrite (s20_quarterround_on 0 4 8 12)
    by (rewrite ?Hlen; unfold distinct4; lia).
  rewrite (s20_quarterround_on 5 9 13 1)
    by (rewrite ?length_quarterround_on, ?Hlen; unfold distinct4; lia).
  rewrite (s20_quarterround_on 10 14 2 6)
    by (rewrite ?length_quarterround_on, ?Hlen; unfold distinct4; lia).
  rewrite (s20_quarterround_on 15 3 7 11)
    by (rewrite ?length_quarterround_on, ?Hlen; unfold distinct4; lia).
  reflexivity.
Qed.

Lemma length_s20_quarterround a b c d (st : list Z) :
  length (s20_quarterround a b c d st) = length st.
Proof. unfold s20_quarterround. cbv zeta. by rewrite !length_set. Qed.

Lemma length_s20_rowround (st : list Z) : length (s20_rowround st) = length st.
Proof. unfold s20_rowround. cbv zeta. by rewrite !length_s20_quarterround. Qed.

Lemma length_s20_columnround (st : list Z) :
  length (s20_columnround st) = length st.
Proof. unfold s20_columnround. cbv zeta. by rewrite !length_s20_quarterround. Qed.

Lemma length_s20_doubleround (st : list Z) :
  length (s20_doubleround st) = length st.
Proof.
  unfold s20_doubleround. cbv zeta.
  by rewrite length_s20_rowround, length_s20_columnround.
Qed.

Lemma length_iter_doubleround (k : nat) (st : list Z) :
  length (Nat.iter k s20_doubleround st) = length st.
Proof.
  induction k as [| k IH]; [done |].
  rewrite Nat.iter_succ. by rewrite length_s20_doubleround.
Qed.

(** ** Filling an array from the left *)

Lemma seqZ_snoc (i : Z) : 0 <= i -> seqZ 0 (i + 1) = seqZ 0 i ++ [i].
Proof.
  intros Hi. rewrite seqZ_app by lia. f_equal.
Qed.

Lemma get_app_drop {A} `{Inhabited A} (l a : list A) (i : Z) :
  0 <= i -> length l = Z.to_nat i ->
  get (l ++ drop (Z.to_nat i) a) i = get a i.
Proof.
  intros Hi Hl. unfold get.
  rewrite lookup_total_app_r by lia. rewrite lookup_total_drop.
  f_equal. lia.
Qed.

Lemma set_app_drop {A} (l a : list A) (i : Z) (v : A) :
  0 <= i -> length l = Z.to_nat i -> (Z.to_nat i < length a)%nat ->
  set (l ++ drop (Z.to_nat i) a) i v =
  (l ++ [v]) ++ drop (Z.to_nat (i + 1)) a.
Proof.
  intros Hi Hl Ha. unfold set.
  destruct (lookup_lt_is_Some_2 a (Z.to_nat i) Ha) as [x Hx].
  rewrite (drop_S _ _ _ Hx).
  rewrite insert_app_r_alt by lia.
  replace (Z.to_nat i - length l)%nat with O by lia.
  replace (Z.to_nat (i + 1)) with (Datatypes.S (Z.to_nat i)) by lia.
  by rewrite <- app_assoc.
Qed.

Lemma get_map_seqZ (f : Z -> Z) (n j : Z) :
  0 <= j < n -> get (map f (seqZ 0 n)) j = f j.
Proof.
  intros Hj. unfold get.
  rewrite (list_lookup_total_fmap f) by (rewrite length_seqZ; lia).
  rewrite lookup_total_seqZ_lt by lia. f_equal. lia.
Qed.

Lemma get_app_mid {A} `{Inhabited A} (l r : list A) (i : Z) (v : A) :
  0 <= i -> length l = Z.to_nat i -> get ((l ++ [v]) ++ r) i = v.
Proof.
  intros Hi Hl. unfold get. rewrite <- app_assoc.
  by apply list_lookup_total_middle.
Qed.

Lemma drop_four {A} (l : list A) (n : nat) :
  (n + 4 <= length l)%nat ->
  exists b0 b1 b2 b3, drop n l = b0 :: b1 :: b2 :: b3 :: drop (n + 4) l.
Proof.
  intros Hn.
  destruct (lookup_lt_is_Some_2 l n ltac:(lia)) as [b0 H0].
  destruct (lookup_lt_is_Some_2 l (Datatypes.S n) ltac:(lia)) as [b1 H1].
  destruct (lookup_lt_is_Some_2 l (Datatypes.S (Datatypes.S n)) ltac:(lia)) as [b2 H2].
  destruct (lookup_lt_is_Some_2 l (Datatypes.S (Datatypes.S (Datatypes.S n)))
              ltac:(lia)) as [b3 H3].
  exists b0, b1, b2, b3.
  rewrite (drop_S _ _ _ H0), (drop_S _ _ _ H1), (drop_S _ _ _ H2), (drop_S _ _ _ H3).
  do 5 f_equal. lia.
Qed.

Lemma length_bytes_of_words (ws : list Z) :
  length (Spec.bytes_of_words ws) = (4 * length ws)%nat.
Proof.
  induction ws as [| w ws IH]; [done |].
  unfold Spec.bytes_of_words in *. cbn [map concat].
  rewrite length_app, IH. cbn [length Spec.bytes_of_word]. lia.
Qed.

Lemma bytes_of_words_snoc (ws : list Z) (w : Z) :
  Spec.bytes_of_words (ws ++ [w]) = Spec.bytes_of_words ws ++ Spec.bytes_of_word w.
Proof.
  unfold Spec.bytes_of_words. rewrite map_app, concat_app.
  cbn [map concat]. by rewrite app_nil_r.
Qed.

Lemma bytes_of_words_bytes (ws : list Z) : Spec.bytes (Spec.bytes_of_words ws).
Proof.
  unfold Spec.bytes. induction ws as [| w ws IH]; [constructor |].
  unfold Spec.bytes_of_words in *. cbn [map concat]. apply Forall_app. split; [| exact IH].
  unfold Spec.bytes_of_word.
  repeat (constructor; [apply (u8_byte _) |]). constructor.
Qed.

(** ** The Core Hash *)

(** The first loop of [s20_hash]: both arrays receive the 16 words read from
    [seq]. *)
Lemma s20_hash_load (seq x0 z0 : list Z) :
  length x0 = 16%nat -> length z0 = 16%nat ->
  for_loop 0 16 1 (fun i '(x, z) =>
      let z := set z i (s20_littleendian (ptr seq (4 * i))) in
      let x := set x i (get z i) in
      (x, z)) (x0, z0)
  = (map (fun j => s20_littleendian (ptr seq (4 * j))) (seqZ 0 16),
     map (fun j => s20_littleendian (ptr seq (4 * j))) (seqZ 0 16)).
Proof.
  intros Hx Hz.
  set (f := fun j => s20_littleendian (ptr seq (4 * j))).
  match goal with |- for_loop _ _ _ ?b _ = _ => set (body := b) end.
  pose (P := fun (i : Z) (st : list Z * list Z) =>
    st = (map f (seqZ 0 i) ++ drop (Z.to_nat i) x0,
          map f (seqZ 0 i) ++ drop (Z.to_nat i) z0)).
  assert (P 16 (for_loop 0 16 1 body (x0, z0))) as HP.
  { apply for_loop_inv; [lia | done |].
    intros i [x z] Hi HPi. unfold P in *. injection HPi as -> ->.
    assert (length (map f (seqZ 0 i)) = Z.to_nat i) as Hl
      by (rewrite length_map, length_seqZ; done).
    unfold body. cbv zeta.
    rewrite (set_app_drop _ z0) by (try done; lia).
    rewrite get_app_mid by (try done; lia).
    rewrite (set_app_drop _ x0) by (try done; lia).
    by rewrite seqZ_snoc, map_app by lia. }
  unfold P in HP. rewrite HP.
  rewrite !drop_ge, !app_nil_r by lia. done.
Qed.

(** The last loop of [s20_hash]: word [j] of [z] becomes [z[j] + x[j]] and is
    written to bytes [4 j .. 4 j + 3] of [seq]. *)
Lemma s20_hash_store (x z0 seq0 : list Z) :
  length z0 = 16%nat -> length seq0 = 64%nat ->
  for_loop 0 16 1 (fun i '(z, seq) =>
      let z := set z i (u32 (get z i + get x i)) in
      let seq := at_ptr seq (4 * i) (fun b => s20_rev_littleendian b (get z i)) in
      (z, seq)) (z0, seq0)
  = (map (fun j => u32 (get z0 j + get x j)) (seqZ 0 16),
     Spec.bytes_of_words (map (fun j => u32 (get z0 j + get x j)) (seqZ 0 16))).
Proof.
  intros Hz Hseq.
  set (g := fun j => u32 (get z0 j + get x j)).
  match goal with |- for_loop _ _ _ ?b _ = _ => set (body := b) end.
  pose (P := fun (i : Z) (st : list Z * list Z) =>
    st = (map g (seqZ 0 i) ++ drop (Z.to_nat i) z0,
          Spec.bytes_of_words (map g (seqZ 0 i)) ++ drop (Z.to_nat (4 * i)) seq0)).
  assert (P 16 (for_loop 0 16 1 body (z0, seq0))) as HP.
  { apply for_loop_inv; [lia | done |].
    intros i [z seq] Hi HPi. unfold P in *. injection HPi as -> ->.
    assert (length (map g (seqZ 0 i)) = Z.to_nat i) as Hl
      by (rewrite length_map, length_seqZ; done).
    assert (length (Spec.bytes_of_words (map g (seqZ 0 i))) = Z.to_nat (4 * i)) as Hb
      by (rewrite length_bytes_of_words, Hl; lia).
    unfold body. cbv zeta.
    rewrite (get_app_drop _ z0) by (try done; lia).
    rewrite (set_app_drop _ z0) by (try done; lia).
    rewrite get_app_mid by (try done; lia).
    fold (g i). rewrite seqZ_snoc, map_app by lia. cbn [map].
    f_equal. unfold at_ptr.
    rewrite take_app_length', drop_app_length' by done.
    destruct (drop_four seq0 (Z.to_nat (4 * i)) ltac:(lia))
      as (b0 & b1 & b2 & b3 & Hd).
    rewrite Hd, s20_rev_littleendian_cons, bytes_of_words_snoc, <- app_assoc.
    do 3 f_equal. lia. }
  unfold P in HP. rewrite HP.
  rewrite !drop_ge, !app_nil_r by lia. done.
Qed.

Lemma s20_hash_from_eq (x0 z0 seq : list Z) :
  length x0 = 16%nat -> length z0 = 16%nat -> length seq = 64%nat ->
  s20_hash_from x0 z0 seq =
  let x := map (fun j => s20_littleendian (ptr seq (4 * j))) (seqZ 0 16) in
  let z := Nat.iter 10 s20_doubleround x in
  Spec.bytes_of_words (map (fun j => u32 (get z j + get x j)) (seqZ 0 16)).
Proof.
  intros Hx Hz Hseq. unfold s20_hash_from.
  rewrite s20_hash_load by done.
  rewrite (for_loop_ten s20_doubleround).
  rewrite s20_hash_store;
    [done | by rewrite length_iter_doubleround, length_map, length_seqZ | done].
Qed.

(** What the uninitialised arrays [x] and [z] hold on entry does not matter. *)
Lemma s20_hash_from_any (x0 z0 seq : list Z) :
  length x0 = 16%nat -> length z0 = 16%nat -> length seq = 64%nat ->
  s20_hash_from x0 z0 seq = s20_hash seq.
Proof.
  intros Hx Hz Hseq. unfold s20_hash.
  by rewrite !s20_hash_from_eq.
Qed.

Lemma length_s20_hash (seq : list Z) :
  length seq = 64%nat -> length (s20_hash seq) = 64%nat.
Proof.
  intros Hseq. unfold s20_hash. rewrite s20_hash_from_eq by done. cbv zeta.
  by rewrite length_bytes_of_words, length_map, length_seqZ.
Qed.

Lemma s20_hash_bytes (seq : list Z) :
  length seq = 64%nat -> Spec.bytes (s20_hash seq).
Proof.
  intros Hseq. unfold s20_hash. rewrite s20_hash_from_eq by done.
  apply bytes_of_words_bytes.
Qed.

Lemma load_words (n : nat) (l : list Z) :
  length l = (4 * n)%nat -> Spec.bytes l ->
  map (fun j => s20_littleendian (ptr l (4 * j))) (seqZ 0 (Z.of_nat n)) =
  Spec.words_of_bytes l.
Proof.
  revert l. induction n as [| n IH]; intros l Hl Hb.
  - by destruct l.
  - destruct l as [| b0 [| b1 [| b2 [| b3 l]]]]; simpl in Hl; try lia.
    unfold Spec.bytes in Hb.
    apply Forall_cons in Hb as [Hb0 Hb]. apply Forall_cons in Hb as [Hb1 Hb].
    apply Forall_cons in Hb as [Hb2 Hb]. apply Forall_cons in Hb as [Hb3 Hb].
    rewrite Nat2Z.inj_succ, seqZ_cons, Z.pred_succ by lia.
    cbn [map Spec.words_of_bytes]. f_equal.
    + change (ptr (b0 :: b1 :: b2 :: b3 :: l) (4 * 0)) with (b0 :: b1 :: b2 :: b3 :: l).
      rewrite s20_littleendian_cons. by apply u32_of_word, word_of_bytes_word.
    + rewrite <- (IH l) by (done || lia).
      change (Z.succ 0) with (1 + 0). rewrite <- fmap_add_seqZ.
      change (Z.add 1 <$> seqZ 0 (Z.of_nat n)) with (map (Z.add 1) (seqZ 0 (Z.of_nat n))).
      rewrite map_map. apply map_ext_in. intros j Hj.
      apply list_elem_of_In, elem_of_seqZ in Hj. f_equal. unfold ptr.
      replace (Z.to_nat (4 * (1 + j))) with (4 + Z.to_nat (4 * j))%nat by lia.
      reflexivity.
Qed.

Ltac explode l H :=
  repeat (destruct l as [| ? l]; [discriminate H |];
          apply Nat.succ_inj in H);
  destruct l; [clear H | discriminate H].

Lemma add_words (z x : list Z) :
  length z = 16%nat -> length x = 16%nat ->
  map (fun j => u32 (get z j + get x j)) (seqZ 0 16) = zip_with Spec.add32 z x.
Proof.
  intros Hz Hx. cbn [length] in *. explode z Hz. explode x Hx. reflexivity.
Qed.

Lemma length_words_of_bytes (n : nat) (l : list Z) :
  length l = (4 * n)%nat -> length (Spec.words_of_bytes l) = n.
Proof.
  revert l. induction n as [| n IH]; intros l Hl.
  - by destruct l.
  - destruct l as [| b0 [| b1 [| b2 [| b3 l]]]]; simpl in Hl; try lia.
    cbn [Spec.words_of_bytes length]. rewrite IH; lia.
Qed.

(** [s20_hash] on a block of 64 bytes, in the specification's terms. *)
Lemma s20_hash_spec (seq : list Z) :
  length seq = 64%nat -> Spec.bytes seq ->
  s20_hash seq =
  Spec.bytes_of_words
    (zip_with Spec.add32
       (Nat.iter 10 s20_doubleround (Spec.words_of_bytes seq))
       (Spec.words_of_bytes seq)).
Proof.
  intros Hseq Hb. unfold s20_hash. rewrite s20_hash_from_eq by done. cbv zeta.
  pose proof (load_words 16 seq Hseq Hb) as Hw.
  change (Z.of_nat 16) with 16 in Hw. rewrite Hw.
  rewrite add_words; [done | |].
  - by rewrite length_iter_doubleround, (length_words_of_bytes 16).
  - by rewrite (length_words_of_bytes 16).
Qed.

(** ** Block Expansion *)

Lemma s20_expand32_app (k32 kt n16 nt keystream : list Z) :
  length k32 = 32%nat -> length n16 = 16%nat -> length keystream = 64%nat ->
  s20_expand32 (k32 ++ kt) (n16 ++ nt) keystream = s20_hash (Spec.prehash k32 n16).
Proof.
  intros Hk Hn Hks. unfold s20_expand32. cbv zeta. f_equal.
  explode k32 Hk. explode n16 Hn. explode keystream Hks.
  vm_compute. reflexivity.
Qed.

(** [s20_expand32] reads 32 bytes at [k] and 16 at [n], and overwrites all
    of [keystream]. *)
Lemma s20_expand32_eq (k n keystream : list Z) :
  (32 <= length k)%nat -> (16 <= length n)%nat -> length keystream = 64%nat ->
  s20_expand32 k n keystream = s20_hash (Spec.prehash (take 32 k) (take 16 n)).
Proof.
  intros Hk Hn Hks.
  rewrite <- (take_drop 32 k) at 1. rewrite <- (take_drop 16 n) at 1.
  apply s20_expand32_app; rewrite ?length_take; lia.
Qed.

Lemma length_prehash (k n : list Z) :
  length k = 32%nat -> length n = 16%nat -> length (Spec.prehash k n) = 64%nat.
Proof.
  intros Hk Hn. unfold Spec.prehash.
  rewrite !length_app, length_take, length_drop, Hk, Hn. reflexivity.
Qed.

Lemma prehash_bytes (k n : list Z) :
  Spec.bytes k -> Spec.bytes n -> Spec.bytes (Spec.prehash k n).
Proof.
  unfold Spec.bytes. intros Hk Hn. unfold Spec.prehash.
  repeat (apply Forall_app; split);
    try (by apply Forall_take); try (by apply Forall_drop); try done;
    repeat (constructor; [unfold Spec.byte; vm_compute; by split |]);
    constructor.
Qed.

Lemma length_s20_expand32 (k n keystream : list Z) :
  (32 <= length k)%nat -> (16 <= length n)%nat -> length keystream = 64%nat ->
  length (s20_expand32 k n keystream) = 64%nat.
Proof.
  intros Hk Hn Hks. rewrite s20_expand32_eq by done.
  apply length_s20_hash, length_prehash; rewrite length_take; lia.
Qed.

Lemma s20_expand32_bytes (k n keystream : list Z) :
  (32 <= length k)%nat -> (16 <= length n)%nat -> length keystream = 64%nat ->
  Spec.bytes (s20_expand32 k n keystream).
Proof.
  intros Hk Hn Hks. rewrite s20_expand32_eq by done.
  apply s20_hash_bytes, length_prehash; rewrite length_take; lia.
Qed.

(** ** The stream driver *)

Lemma get_byte (l : list Z) (i : Z) : Spec.bytes l -> Spec.byte (get l i).
Proof.
  intros Hl. unfold get.
  destruct (l !! Z.to_nat i) as [x |] eqn:Hx.
  - rewrite (list_lookup_total_correct _ _ _ Hx).
    exact (Forall_lookup_1 _ _ _ _ Hl Hx).
  - rewrite list_lookup_total_alt, Hx. unfold Spec.byte. simpl. lia.
Qed.

Lemma set_bytes (l : list Z) (i v : Z) :
  Spec.bytes l -> Spec.byte v -> Spec.bytes (set l i v).
Proof. intros Hl Hv. by apply Forall_insert. Qed.

#[local] Hint Resolve get_byte set_bytes : s20.

Lemma take_ptr (a : list Z) (off n : Z) :
  0 <= off -> 0 <= n -> off + n <= Z.of_nat (length a) ->
  take (Z.to_nat n) (ptr a off) = map (fun i => get a (off + i)) (seqZ 0 n).
Proof.
  intros Ho Hn Hlen.
  assert (length (take (Z.to_nat n) (ptr a off)) = Z.to_nat n) as Hl
    by (unfold ptr; rewrite length_take, length_drop; lia).
  apply list_eq_get.
  - by rewrite Hl, length_map, length_seqZ.
  - intros i Hi. rewrite Hl in Hi.
    rewrite (get_map_seqZ (fun i => get a (off + i))) by lia.
    unfold get at 1. rewrite lookup_total_take_lt by lia.
    fold (get (ptr a off) i). by apply get_ptr; lia.
Qed.

(** Two memories that agree on a region show the same bytes through a
    pointer to it. *)
Lemma take_ptr_agree (a b : list Z) (off n : Z) :
  0 <= off -> 0 <= n ->
  off + n <= Z.of_nat (length a) -> length b = length a ->
  (forall i, off <= i < off + n -> get b i = get a i) ->
  take (Z.to_nat n) (ptr b off) = take (Z.to_nat n) (ptr a off).
Proof.
  intros Ho Hn Hlen Hab Hget.
  rewrite !take_ptr by lia. apply map_ext_in. intros i Hi.
  apply list_elem_of_In, elem_of_seqZ in Hi. apply Hget. lia.
Qed.

Lemma length_key_of (key : Z) (mem : list Z) :
  0 <= key -> key + 32 <= Z.of_nat (length mem) -> length (key_of key mem) = 32%nat.
Proof.
  intros H0 H1. unfold key_of, ptr. rewrite length_take, length_drop. lia.
Qed.

Lemma length_nonce_of (nonce : Z) (mem : list Z) :
  0 <= nonce -> nonce + 8 <= Z.of_nat (length mem) ->
  length (nonce_of nonce mem) = 8%nat.
Proof.
  intros H0 H1. unfold nonce_of, ptr. rewrite length_take, length_drop. lia.
Qed.

Lemma length_input_field (nonce : list Z) (c : Z) :
  length nonce = 8%nat -> length (Spec.input_field nonce c) = 16%nat.
Proof. intros Hn. unfold Spec.input_field. rewrite length_app, Hn. reflexivity. Qed.

Lemma keystream_block_eq (key nonce : list Z) (c : Z) :
  length key = 32%nat -> length nonce = 8%nat ->
  keystream_block key nonce c =
  s20_hash (Spec.prehash key (Spec.input_field nonce c)).
Proof.
  intros Hk Hn. unfold keystream_block.
  rewrite s20_expand32_eq
    by (rewrite ?length_input_field, ?length_replicate by done; lia).
  rewrite !take_ge by (rewrite ?length_input_field by done; lia). done.
Qed.

Lemma length_keystream_block (key nonce : list Z) (c : Z) :
  length key = 32%nat -> length nonce = 8%nat ->
  length (keystream_block key nonce c) = 64%nat.
Proof.
  intros Hk Hn. unfold keystream_block.
  apply length_s20_expand32;
    rewrite ?length_input_field, ?length_replicate by done; lia.
Qed.

Lemma keystream_block_bytes (key nonce : list Z) (c : Z) :
  length key = 32%nat -> length nonce = 8%nat ->
  Spec.bytes (keystream_block key nonce c).
Proof.
  intros Hk Hn. unfold keystream_block.
  apply s20_expand32_bytes;
    rewrite ?length_input_field, ?length_replicate by done; lia.
Qed.

#[local] Hint Resolve keystream_block_bytes length_keystream_block : s20.

Lemma s20_crypt_init_eq (nonce : Z) (mem : list Z) :
  0 <= nonce -> nonce + 8 <= Z.of_nat (length mem) ->
  s20_crypt_init nonce mem = nonce_of nonce mem ++ replicate 8 0.
Proof.
  intros H0 H1. unfold nonce_of.
  change 8%nat with (Z.to_nat 8) at 1. rewrite take_ptr by lia.
  reflexivity.
Qed.

Lemma u32_mod_64 (z : Z) : u32 z mod 64 = z mod 64.
Proof.
  unfold u32. change (2 ^ 32) with 4294967296.
  Z.div_mod_to_equations. lia.
Qed.

Lemma same_block (i : Z) : 0 <= i -> i mod 64 <> 0 -> (i - 1) / 64 = i / 64.
Proof. intros Hi Hm. Z.div_mod_to_equations. lia. Qed.

Section Crypt.

Variables (key nonce si buf buflen : Z) (mem : list Z).
Hypothesis Hcall : valid_call key nonce si buf buflen mem.

Local Abbreviation K := (key_of key mem).
Local Abbreviation N := (nonce_of nonce mem).

Lemma crypt_inv_init (keystream : list Z) :
  length keystream = 64%nat ->
  crypt_inv key nonce si buf mem 0 (s20_crypt_init nonce mem, keystream, mem).
Proof.
  intros Hks. destruct Hcall as [Hb _ [Hn0 Hn1] _ _ _ _ _].
  split; cbn [fst snd]; try done.
  - intros j Hj. lia.
  - split; [by apply s20_crypt_init_eq | done].
Qed.

(** One turn of the main loop keeps the invariant. *)
Lemma crypt_inv_step (i : Z) (st : list Z * list Z * list Z) :
  0 <= i < buflen ->
  crypt_inv key nonce si buf mem i st ->
  crypt_inv key nonce si buf mem (i + 1) (s20_crypt_step key si buf i st).
Proof.
  intros Hi [Hlen Hbytes Hframe Hdone Hblock].
  destruct st as [[n ks] m]. cbn [fst snd] in *.
  destruct Hcall as [Hb [Hk0 Hk1] [Hn0 Hn1] [Hb0 Hb1] Hbl Hsi Hkb Hnb].
  assert (length K = 32%nat) as HlK by (by apply length_key_of).
  assert (length N = 8%nat) as HlN by (by apply length_nonce_of).
  assert ((if i mod 64 =? 0
           then (at_ptr n 8 (fun b => s20_rev_littleendian b (i / 64)),
                 s20_expand32 (ptr m key)
                   (at_ptr n 8 (fun b => s20_rev_littleendian b (i / 64))) ks)
           else (n, ks))
          = (Spec.input_field N (i / 64), keystream_block K N (i / 64))) as Hcond.
  { destruct (Z.eqb_spec (i mod 64) 0) as [Hm | Hm].
    - assert (exists b0 b1 b2 b3, n = N ++ b0 :: b1 :: b2 :: b3 :: [0; 0; 0; 0]) as Hn.
      { destruct (Z.eqb_spec i 0); destruct Hblock as [-> _].
        - by exists 0, 0, 0, 0.
        - unfold Spec.input_field, Spec.bytes_of_word. cbn [app]. eauto. }
      assert (length ks = 64%nat) as Hks.
      { destruct (Z.eqb_spec i 0); destruct Hblock as [_ Hks]; [done |].
        rewrite Hks. auto with s20. }
      destruct Hn as (b0 & b1 & b2 & b3 & ->).
      assert (at_ptr (N ++ b0 :: b1 :: b2 :: b3 :: [0; 0; 0; 0]) 8
                (fun b => s20_rev_littleendian b (i / 64))
              = Spec.input_field N (i / 64)) as ->.
      { unfold at_ptr. change (Z.to_nat 8) with 8%nat.
        rewrite take_app_length', drop_app_length' by done.
        by rewrite s20_rev_littleendian_cons. }
      f_equal.
      rewrite s20_expand32_eq
        by (unfold ptr; rewrite ?length_drop, ?length_input_field by done; lia).
      rewrite keystream_block_eq by done. do 2 f_equal.
      + apply (take_ptr_agree mem m key 32); try lia.
        intros a Ha. apply Hframe; [lia |]. unfold apart in Hkb. lia.
      + apply take_ge. rewrite length_input_field by done. lia.
    - assert (i <> 0) as Hne by (intros ->; by apply Hm).
      destruct (Z.eqb_spec i 0); [done |].
      destruct Hblock as [-> ->]. rewrite same_block by (done || lia). done. }
  unfold s20_crypt_step. cbv zeta. rewrite Hcond.
  rewrite u32_mod_64, (Hframe (buf + i)) by lia.
  rewrite u8_of_byte by auto with s20.
  split; cbn [fst snd].
  - by rewrite length_set.
  - auto 6 with s20.
  - intros a Ha Hout. rewrite get_set_ne by lia. apply Hframe; lia.
  - intros j Hj. destruct (Z.eq_dec j i) as [-> | Hne].
    + by rewrite get_set_eq by (rewrite Hlen; lia).
    + rewrite get_set_ne by lia. apply Hdone. lia.
  - destruct (Z.eqb_spec (i + 1) 0); [lia |].
    by replace (i + 1 - 1) with i by lia.
Qed.

(** The invariant holds after any number of turns. *)
Lemma crypt_inv_loop (keystream : list Z) (i : Z) :
  length keystream = 64%nat -> 0 <= i <= buflen ->
  crypt_inv key nonce si buf mem i
    (for_loop 0 i 1 (s20_crypt_step key si buf)
       (s20_crypt_init nonce mem, keystream, mem)).
Proof.
  intros Hks Hi.
  apply (for_loop_inv (crypt_inv key nonce si buf mem)); [lia | |].
  - by apply crypt_inv_init.
  - intros j st Hj. apply crypt_inv_step. lia.
Qed.

Lemma s20_crypt_from_loop (keystream : list Z) :
  s20_crypt_from keystream key nonce si buf buflen mem =
  (for_loop 0 buflen 1 (s20_crypt_step key si buf)
     (s20_crypt_init nonce mem, keystream, mem)).2.
Proof.
  unfold s20_crypt_from. cbv zeta.
  by destruct (for_loop _ _ _ _ _) as [[n ks] m].
Qed.

Lemma s20_crypt_from_inv (keystream : list Z) :
  length keystream = 64%nat ->
  let mem' := s20_crypt_from keystream key nonce si buf buflen mem in
  length mem' = length mem /\
  Spec.bytes mem' /\
  (forall a, 0 <= a -> ~ (buf <= a < buf + buflen) -> get mem' a = get mem a) /\
  (forall j, 0 <= j < buflen ->
     get mem' (buf + j) =
     Z.lxor (get mem (buf + j))
       (get (keystream_block K N (j / 64)) ((si + j) mod 64))).
Proof.
  intros Hks mem'. subst mem'. rewrite s20_crypt_from_loop.
  destruct (crypt_inv_loop keystream buflen Hks) as [H1 H2 H3 H4 _].
  { destruct Hcall. lia. }
  done.
Qed.

End Crypt.

Lemma valid_call_apart (key nonce si buf buflen : Z) (mem mem' : list Z) :
  valid_call key nonce si buf buflen mem ->
  length mem' = length mem -> Spec.bytes mem' ->
  valid_call key nonce si buf buflen mem'.
Proof.
  intros [Hb Hk Hn Hbuf Hbl Hsi Hkb Hnb] Hlen Hb'.
  split; try done; rewrite Hlen; done.
Qed.

Lemma s20_crypt_from_reads (keystream : list Z)
    (key nonce si buf buflen : Z) (mem : list Z) :
  valid_call key nonce si buf buflen mem ->
  length keystream = 64%nat ->
  let mem' := s20_crypt_from keystream key nonce si buf buflen mem in
  key_of key mem' = key_of key mem /\ nonce_of nonce mem' = nonce_of nonce mem.
Proof.
  intros Hcall Hks mem'.
  destruct (s20_crypt_from_inv _ _ _ _ _ _ Hcall keystream Hks) as (Hl & _ & Hf & _).
  fold mem' in Hl, Hf.
  destruct Hcall as [Hb [Hk0 Hk1] [Hn0 Hn1] [Hb0 Hb1] Hbl Hsi Hkb Hnb].
  unfold apart in *. split.
  - apply (take_ptr_agree mem mem' key 32); try lia.
    intros a Ha. apply Hf; lia.
  - apply (take_ptr_agree mem mem' nonce 8); try lia.
    intros a Ha. apply Hf; lia.
Qed.

(** What the uninitialised array [keystream] holds on entry does not
    matter. *)
Lemma s20_crypt_from_any (keystream : list Z)
    (key nonce si buf buflen : Z) (mem : list Z) :
  valid_call key nonce si buf buflen mem ->
  length keystream = 64%nat ->
  s20_crypt_from keystream key nonce si buf buflen mem =
  s20_crypt key nonce si buf buflen mem.
Proof.
  intros Hcall Hks. unfold s20_crypt.
  destruct (s20_crypt_from_inv _ _ _ _ _ _ Hcall keystream Hks) as (Hl & _ & Hf & Hd).
  destruct (s20_crypt_from_inv _ _ _ _ _ _ Hcall (replicate 64 0) eq_refl)
    as (Hl' & _ & Hf' & Hd').
  apply list_eq_get; [congruence |].
  intros a Ha.
  destruct (Z_lt_ge_dec a buf) as [Hlo | Hlo];
    [rewrite Hf, Hf' by lia; done |].
  destruct (Z_lt_ge_dec a (buf + buflen)) as [Hhi | Hhi];
    [| rewrite Hf, Hf' by lia; done].
  replace a with (buf + (a - buf)) by lia.
  rewrite Hd, Hd' by lia. done.
Qed.

(** Byte [i] of the buffer after a call. *)
Lemma s20_crypt_byte (key nonce si buf buflen : Z) (mem : list Z) (i : Z) :
  valid_call key nonce si buf buflen mem ->
  0 <= i < buflen ->
  get (s20_crypt key nonce si buf buflen mem) (buf + i) =
  Z.lxor (get mem (buf + i))
    (get (keystream_block (key_of key mem) (nonce_of nonce mem) (i / 64))
         ((si + i) mod 64)).
Proof.
  intros Hcall Hi.
  destruct (s20_crypt_from_inv _ _ _ _ _ _ Hcall (replicate 64 0) eq_refl)
    as (_ & _ & _ & Hd).
  exact (Hd i Hi).
Qed.

Lemma example_valid : valid_call 0 32 5 40 70 example_mem.
Proof.
  split; unfold apart; try (simpl; lia).
  unfold Spec.bytes, example_mem, example_key, example_nonce, example_buf.
  repeat (apply Forall_app; split).
  - apply Forall_cons. split; [unfold Spec.byte; lia |].
    apply Forall_replicate. unfold Spec.byte. lia.
  - apply Forall_replicate. unfold Spec.byte. lia.
  - apply Forall_forall. intros b Hb. apply list_elem_of_In, in_map_iff in Hb.
    destruct Hb as (i & <- & _). apply Z.mod_pos_bound. lia.
Defined.

(** The separation asked by [valid_call] is needed: when [buf] points at the
    key itself, the first call changes the key that the second call reads,
    and the second call does not undo the first. *)
Lemma s20_crypt_overlap :
  s20_crypt 0 32 0 0 1 (s20_crypt 0 32 0 0 1 example_mem) <> example_mem.
Proof. vm_compute. discriminate. Qed.

(** ** The claims *)

(** C1.  In a call of [s20_crypt] on a 32-byte key, an 8-byte nonce, an
    index [si] and a buffer of [buflen] bytes, for every position [i] of the
    buffer: once the loop has processed byte [i], the input field [n] holds
    the nonce, then the block counter [i / 64] in little-endian order on 4
    bytes, then 4 zero bytes, and [keystream] holds the Block Expansion of
    the key and of that field; the counter comes from [i] alone, not from
    [si].  A turn of the loop whose index is not a multiple of 64 leaves [n]
    and [keystream] as they are.  The call replaces [buf[i]] by
    [buf[i] xor keystream[(si + i) mod 64]] for that block. *)
Theorem s20_crypt_stream (key nonce si buf buflen : Z) (mem : list Z) (i : Z) :
  valid_call key nonce si buf buflen mem ->
  0 <= i < buflen ->
  let field := nonce_of nonce mem ++ Spec.bytes_of_word (i / 64) ++ [0; 0; 0; 0] in
  let block := s20_expand32 (key_of key mem) field (replicate 64 0) in
  (for_loop 0 (i + 1) 1 (s20_crypt_step key si buf)
     (s20_crypt_init nonce mem, replicate 64 0, mem)).1 = (field, block) /\
  (forall n keystream m, i mod 64 <> 0 ->
     (s20_crypt_step key si buf i (n, keystream, m)).1 = (n, keystream)) /\
  get (s20_crypt key nonce si buf buflen mem) (buf + i) =
    Z.lxor (get mem (buf + i)) (get block ((si + i) mod 64)).
Proof.
  intros Hcall Hi field block. split; [| split].
  - destruct (crypt_inv_loop key nonce si buf buflen mem Hcall
                (replicate 64 0) (i + 1) eq_refl ltac:(lia)) as [_ _ _ _ Hblock].
    destruct (Z.eqb_spec (i + 1) 0) as [He | He]; [lia |].
    replace (i + 1 - 1) with i in Hblock by lia.
    destruct Hblock as [Hn Hks].
    destruct (for_loop _ _ _ _ _) as [[n ks] m]. cbn [fst snd] in *.
    rewrite Hn, Hks. reflexivity.
  - intros n keystream m Hm. unfold s20_crypt_step.
    destruct (Z.eqb_spec (i mod 64) 0); done.
  - rewrite s20_crypt_byte by done. reflexivity.
Qed.

Lemma s20_crypt_stream_witness :
  get (s20_crypt 0 32 5 40 70 example_mem) (40 + 65) =
  Z.lxor (get example_mem (40 + 65))
    (get (s20_expand32 (key_of 0 example_mem)
            (nonce_of 32 example_mem ++ Spec.bytes_of_word (65 / 64) ++ [0; 0; 0; 0])
            (replicate 64 0))
         ((5 + 65) mod 64)).
Proof.
  exact (proj2 (proj2 (s20_crypt_stream 0 32 5 40 70 example_mem 65
                         example_valid ltac:(lia)))).
Defined.

(** C2.  Applying [s20_crypt] twice with the same key, nonce and [si] to a
    buffer gives the buffer, and the whole memory, back. *)
Theorem s20_crypt_involution (key nonce si buf buflen : Z) (mem : list Z) :
  valid_call key nonce si buf buflen mem ->
  s20_crypt key nonce si buf buflen (s20_crypt key nonce si buf buflen mem) = mem.
Proof.
  intros Hcall.
  destruct (s20_crypt_from_inv _ _ _ _ _ _ Hcall (replicate 64 0) eq_refl)
    as (Hl & Hb & Hf & Hd).
  destruct (s20_crypt_from_reads (replicate 64 0) _ _ _ _ _ _ Hcall eq_refl)
    as [HK HN].
  fold (s20_crypt key nonce si buf buflen mem) in Hl, Hb, Hf, Hd, HK, HN.
  pose proof (valid_call_apart _ _ _ _ _ _ _ Hcall Hl Hb) as Hcall'.
  destruct (s20_crypt_from_inv _ _ _ _ _ _ Hcall' (replicate 64 0) eq_refl)
    as (Hl' & _ & Hf' & Hd').
  fold (s20_crypt key nonce si buf buflen (s20_crypt key nonce si buf buflen mem))
    in Hl', Hf', Hd'.
  apply list_eq_get; [congruence |].
  intros a Ha.
  destruct (Z_lt_ge_dec a buf) as [Hlo | Hlo];
    [rewrite Hf', Hf by lia; done |].
  destruct (Z_lt_ge_dec a (buf + buflen)) as [Hhi | Hhi];
    [| rewrite Hf', Hf by lia; done].
  replace a with (buf + (a - buf)) by lia.
  rewrite Hd', Hd by lia. rewrite HK, HN. apply lxor_cancel.
Qed.

Lemma s20_crypt_involution_witness :
  s20_crypt 0 32 5 40 70 (s20_crypt 0 32 5 40 70 example_mem) = example_mem.
Proof. exact (s20_crypt_involution 0 32 5 40 70 example_mem example_valid). Defined.
(** C3.  On four 32-bit words [y0 .. y3], held in an array and reached
    through four pointers, [s20_quarterround] leaves the words
    [z1 = y1 xor rotl (y0 + y3) 7], [z2 = y2 xor rotl (z1 + y0) 9],
    [z3 = y3 xor rotl (z2 + z1) 13] and [z0 = y0 xor rotl (z3 + z2) 18],
    each step using the words the steps before it produced; the additions
    wrap modulo [2 ^ 32], [rotl] is the left circular rotation of a 32-bit
    word, and the four results are 32-bit words again. *)
Theorem s20_quarterround_order (y0 y1 y2 y3 : Z) :
  Spec.word y0 -> Spec.word y1 -> Spec.word y2 -> Spec.word y3 ->
  let z1 := Z.lxor y1 (Spec.rotl32 ((y0 + y3) mod 2 ^ 32) 7) in
  let z2 := Z.lxor y2 (Spec.rotl32 ((z1 + y0) mod 2 ^ 32) 9) in
  let z3 := Z.lxor y3 (Spec.rotl32 ((z2 + z1) mod 2 ^ 32) 13) in
  let z0 := Z.lxor y0 (Spec.rotl32 ((z3 + z2) mod 2 ^ 32) 18) in
  s20_quarterround 0 1 2 3 [y0; y1; y2; y3] = [z0; z1; z2; z3] /\
  Spec.words [z0; z1; z2; z3].
Proof.
  intros H0 H1 H2 H3 z1 z2 z3 z0. split.
  - rewrite (s20_quarterround_on 0 1 2 3) by (unfold distinct4; simpl; lia).
    reflexivity.
  - pose proof (quarterround_words y0 y1 y2 y3 H0 H1 H2 H3) as Hw.
    unfold Spec.quarterround in Hw. destruct Hw as (Hz0 & Hz1 & Hz2 & Hz3).
    unfold Spec.words.
    constructor; [exact Hz0 |]. constructor; [exact Hz1 |].
    constructor; [exact Hz2 |]. constructor; [exact Hz3 |]. constructor.
Qed.

Lemma s20_quarterround_order_witness :
  s20_quarterround 0 1 2 3 [1; 0; 0; 0] = [134250821; 128; 66048; 542113792].
Proof.
  pose proof (s20_quarterround_order 1 0 0 0) as H.
  destruct H as [H _]; [unfold Spec.word; lia ..|].
  rewrite H. vm_compute. reflexivity.
Defined.


(** C4.  On a 16-word state, [s20_rowround] is Quarter-Round on the words
    at indices (0,1,2,3), (5,6,7,4), (10,11,8,9), (15,12,13,14), in that
    order; [s20_columnround] is Quarter-Round on (0,4,8,12), (5,9,13,1),
    (10,14,2,6), (15,3,7,11), in that order; [s20_doubleround] is
    [s20_columnround] followed by [s20_rowround]; each returns the state
    array itself, updated, still 16 words long. *)
Theorem s20_rounds_wiring (st : list Z) :
  length st = 16%nat ->
  s20_rowround st =
    Spec.quarterround_on 15 12 13 14
      (Spec.quarterround_on 10 11 8 9
        (Spec.quarterround_on 5 6 7 4
          (Spec.quarterround_on 0 1 2 3 st))) /\
  s20_columnround st =
    Spec.quarterround_on 15 3 7 11
      (Spec.quarterround_on 10 14 2 6
        (Spec.quarterround_on 5 9 13 1
          (Spec.quarterround_on 0 4 8 12 st))) /\
  s20_doubleround st = s20_rowround (s20_columnround st) /\
  length (s20_rowround st) = 16%nat /\
  length (s20_columnround st) = 16%nat /\
  length (s20_doubleround st) = 16%nat.
Proof.
  intros Hlen. split; [by apply s20_rowround_on |].
  split; [by apply s20_columnround_on |].
  split; [reflexivity |].
  by rewrite length_s20_rowround, length_s20_columnround, length_s20_doubleround.
Qed.

Lemma s20_rounds_wiring_witness :
  length (s20_doubleround (replicate 16 1)) = 16%nat.
Proof.
  apply (s20_rounds_wiring (replicate 16 1)). reflexivity.
Defined.

(** C5.  On a block of 64 bytes, [s20_hash] reads the block as 16
    little-endian 32-bit words, keeps these words, applies
    [s20_doubleround] 10 times to a copy, adds each kept word to the word of
    the copy at the same index modulo [2 ^ 32], and writes the 16 sums back
    as little-endian bytes; the result is again a block of 64 bytes. *)
Theorem s20_hash_core (seq : list Z) :
  length seq = 64%nat -> Spec.bytes seq ->
  let x := Spec.words_of_bytes seq in
  let z := Nat.iter 10 s20_doubleround x in
  s20_hash seq = Spec.bytes_of_words (zip_with Spec.add32 z x) /\
  length x = 16%nat /\
  length (s20_hash seq) = 64%nat /\
  Spec.bytes (s20_hash seq).
Proof.
  intros Hseq Hb x z. split; [by apply s20_hash_spec |].
  split; [by apply (length_words_of_bytes 16) |].
  split; [by apply length_s20_hash | by apply s20_hash_bytes].
Qed.

Lemma s20_hash_core_witness :
  length (s20_hash (replicate 64 0)) = 64%nat.
Proof.
  apply (s20_hash_core (replicate 64 0)).
  - reflexivity.
  - apply Forall_replicate. unfold Spec.byte. lia.
Defined.

(** C6.  For a 32-byte key [k] and a 16-byte input field [n],
    [s20_expand32] hands to [s20_hash] the 64 bytes made of "expa" at
    offsets 0-3, [k[0..15]] at 4-19, "nd 3" at 20-23, [n] at 24-39, "2-by"
    at 40-43, [k[16..31]] at 44-59 and "te k" at 60-63, whatever
    [keystream] held before, and its output is the hash of these bytes. *)
Theorem s20_expand32_layout (k n keystream : list Z) :
  length k = 32%nat -> length n = 16%nat -> length keystream = 64%nat ->
  s20_expand32 k n keystream =
  s20_hash
    (Spec.bytes_of_string "expa" ++ take 16 k ++
     Spec.bytes_of_string "nd 3" ++ n ++
     Spec.bytes_of_string "2-by" ++ drop 16 k ++
     Spec.bytes_of_string "te k").
Proof.
  intros Hk Hn Hks.
  rewrite s20_expand32_eq by lia.
  rewrite !take_ge by lia. reflexivity.
Qed.

Lemma s20_expand32_layout_witness :
  s20_expand32 example_key (replicate 16 0) (replicate 64 0) =
  s20_hash
    (Spec.bytes_of_string "expa" ++ take 16 example_key ++
     Spec.bytes_of_string "nd 3" ++ replicate 16 0 ++
     Spec.bytes_of_string "2-by" ++ drop 16 example_key ++
     Spec.bytes_of_string "te k").
Proof.
  exact (s20_expand32_layout example_key (replicate 16 0) (replicate 64 0)
           eq_refl eq_refl eq_refl).
Defined.

(** C7.  For the key whose byte 0 is 0x80 and whose other 31 bytes are
    zero, the zero nonce and the block counter 0, Block Expansion gives the
    first 64 keystream bytes of the first vector of the published
    Salsa20/20 256-bit test vectors (eSTREAM verified test vectors, set 1,
    vector 0); [s20_crypt] on 64 zero bytes writes the same bytes. *)
Theorem s20_known_answer :
  s20_expand32 (128 :: replicate 31 0)
    (replicate 8 0 ++ Spec.bytes_of_word 0 ++ [0; 0; 0; 0]) (replicate 64 0) =
  Spec.bytes_of_hex
    ("E3BE8FDD8BECA2E3EA8EF9475B29A6E7" ++ "003951E1097A5C38D23B7A5FAD9F6844" ++
     "B22C97559E2723C7CBBD3FE4FC8D9A07" ++ "44652A83E72A9C461876AF4D7EF1A117") /\
  s20_crypt 0 32 0 40 64 ((128 :: replicate 31 0) ++ replicate 8 0 ++ replicate 64 0) =
  (128 :: replicate 31 0) ++ replicate 8 0 ++
  Spec.bytes_of_hex
    ("E3BE8FDD8BECA2E3EA8EF9475B29A6E7" ++ "003951E1097A5C38D23B7A5FAD9F6844" ++
     "B22C97559E2723C7CBBD3FE4FC8D9A07" ++ "44652A83E72A9C461876AF4D7EF1A117").
Proof. split; vm_compute; reflexivity. Qed.

(** C8.  A call of [s20_crypt] with [buflen = 0] returns, and leaves the
    caller's memory, the buffer included, as it was, whatever the key, the
    nonce, [si] and the buffer address are. *)
Theorem s20_crypt_empty (key nonce si buf : Z) (mem : list Z) :
  s20_crypt key nonce si buf 0 mem = mem /\
  forall keystream, s20_crypt_from keystream key nonce si buf 0 mem = mem.
Proof. split; [| intros keystream]; reflexivity. Qed.

(** C9.  A call of [s20_crypt] leaves every byte of the caller's memory
    outside [buf[0 .. buflen)] as it was, so that the 32 bytes at [key] and
    the 8 bytes at [nonce] are the same after the call as before, and the
    memory keeps its size.  The byte xored into [buf[i]] is the same for
    any two memories that hold the same key and the same nonce, whatever
    their buffers hold. *)
Theorem s20_crypt_frame (key nonce si buf buflen : Z) (mem : list Z) :
  valid_call key nonce si buf buflen mem ->
  let mem' := s20_crypt key nonce si buf buflen mem in
  length mem' = length mem /\
  (forall a, 0 <= a -> ~ (buf <= a < buf + buflen) -> get mem' a = get mem a) /\
  key_of key mem' = key_of key mem /\
  nonce_of nonce mem' = nonce_of nonce mem /\
  (forall mem2 i,
     valid_call key nonce si buf buflen mem2 ->
     key_of key mem2 = key_of key mem ->
     nonce_of nonce mem2 = nonce_of nonce mem ->
     0 <= i < buflen ->
     Z.lxor (get (s20_crypt key nonce si buf buflen mem2) (buf + i)) (get mem2 (buf + i)) =
     Z.lxor (get mem' (buf + i)) (get mem (buf + i))).
Proof.
  intros Hcall mem'.
  destruct (s20_crypt_from_inv _ _ _ _ _ _ Hcall (replicate 64 0) eq_refl)
    as (Hl & _ & Hf & _).
  destruct (s20_crypt_from_reads (replicate 64 0) _ _ _ _ _ _ Hcall eq_refl)
    as [HK HN].
  split; [exact Hl |]. split; [exact Hf |]. split; [exact HK |].
  split; [exact HN |].
  intros mem2 i Hcall2 HK2 HN2 Hi. subst mem'.
  rewrite !s20_crypt_byte by done. rewrite HK2, HN2.
  rewrite !(Z.lxor_comm (get _ (buf + i))), !lxor_cancel. reflexivity.
Qed.

Lemma s20_crypt_frame_witness :
  key_of 0 (s20_crypt 0 32 5 40 70 example_mem) = key_of 0 example_mem.
Proof.
  exact (proj1 (proj2 (proj2 (s20_crypt_frame 0 32 5 40 70 example_mem example_valid)))).
Defined.

(** C10.  Writing a 32-bit word [w] with [s20_rev_littleendian] and reading
    the four bytes back with [s20_littleendian] gives [w]. *)
Theorem s20_littleendian_roundtrip (b : list Z) (w : Z) :
  Spec.word w -> (4 <= length b)%nat ->
  s20_littleendian (s20_rev_littleendian b w) = w.
Proof.
  intros Hw Hb.
  destruct b as [| b0 [| b1 [| b2 [| b3 b]]]]; simpl in Hb; try lia.
  rewrite s20_rev_littleendian_cons. unfold Spec.bytes_of_word.
  cbn [app]. rewrite s20_littleendian_cons.
  rewrite word_of_bytes_of_word by done. by apply u32_of_word.
Qed.

Lemma s20_littleendian_roundtrip_witness :
  s20_littleendian (s20_rev_littleendian [0; 0; 0; 0] 3735928559) = 3735928559.
Proof.
  apply (s20_littleendian_roundtrip [0; 0; 0; 0] 3735928559).
  - unfold Spec.word. lia.
  - simpl. lia.
Defined.

(** ** Further properties *)

(** *** Rotation and little-endian words *)

(** X1.  Rotating a 32-bit word left by [s] and then left by [32 - s] gives
    the word back: [rotl] loses no bit. *)
Theorem rotl_undo (v s : Z) :
  Spec.word v -> 0 < s < 32 -> rotl (rotl v s) (32 - s) = v.
Proof.
  intros Hv Hs.
  rewrite (rotl_rotl32 v s) by done.
  rewrite rotl_rotl32 by (auto with s20 || lia).
  apply Z.bits_inj'. intros i Hi.
  destruct (Z.lt_ge_cases i 32) as [Hlt | Hge].
  - rewrite testbit_rotl32 by lia.
    rewrite testbit_rotl32 by (apply Z.mod_pos_bound; lia).
    f_equal. Z.div_mod_to_equations. lia.
  - rewrite (testbit_above 32 v) by (unfold Spec.word in Hv; lia).
    apply (testbit_above 32); [apply rotl32_word | lia].
Qed.

Lemma rotl_undo_witness : rotl (rotl 2147483649 7) (32 - 7) = 2147483649.
Proof. apply rotl_undo; unfold Spec.word; lia. Defined.

Lemma bytes_of_word_of_bytes (b0 b1 b2 b3 : Z) :
  Spec.byte b0 -> Spec.byte b1 -> Spec.byte b2 -> Spec.byte b3 ->
  Spec.bytes_of_word (Spec.word_of_bytes b0 b1 b2 b3) = [b0; b1; b2; b3].
Proof.
  unfold Spec.byte, Spec.bytes_of_word, Spec.word_of_bytes.
  change (2 ^ 8) with 256. change (2 ^ 16) with 65536.
  change (2 ^ 24) with 16777216.
  intros H0 H1 H2 H3.
  repeat f_equal; Z.div_mod_to_equations; lia.
Qed.

(** X2.  Reading a word from four bytes with [s20_littleendian] and writing
    it back to the same place with [s20_rev_littleendian] leaves the array
    as it was. *)
Theorem s20_rev_littleendian_roundtrip (b : list Z) :
  Spec.bytes b -> (4 <= length b)%nat ->
  s20_rev_littleendian b (s20_littleendian b) = b.
Proof.
  intros Hb Hl.
  destruct b as [| b0 [| b1 [| b2 [| b3 b]]]]; simpl in Hl; try lia.
  unfold Spec.bytes in Hb.
  apply Forall_cons in Hb as [Hb0 Hb]. apply Forall_cons in Hb as [Hb1 Hb].
  apply Forall_cons in Hb as [Hb2 Hb]. apply Forall_cons in Hb as [Hb3 Hb].
  rewrite s20_littleendian_cons, s20_rev_littleendian_cons.
  rewrite u32_of_word by (by apply word_of_bytes_word).
  by rewrite bytes_of_word_of_bytes.
Qed.

Lemma s20_rev_littleendian_roundtrip_witness :
  s20_rev_littleendian [1; 2; 3; 255; 9] (s20_littleendian [1; 2; 3; 255; 9]) =
  [1; 2; 3; 255; 9].
Proof.
  apply s20_rev_littleendian_roundtrip.
  - repeat (constructor; [unfold Spec.byte; lia |]). constructor.
  - simpl. lia.
Defined.

(** *** Quarter-Round and the rounds lose nothing *)

Lemma quarterround_on_on4 (a b c d : nat) (st : list Z) :
  Spec.quarterround_on a b c d st = on4 Spec.quarterround a b c d st.
Proof. reflexivity. Qed.

Lemma length_on4 f (a b c d : nat) (st : list Z) :
  length (on4 f a b c d st) = length st.
Proof.
  unfold on4. destruct (f _) as [[[z0 z1] z2] z3]. by rewrite !length_insert.
Qed.

Lemma quarterround_undo_quarterround (y : Z * Z * Z * Z) :
  quarterround_undo (Spec.quarterround y) = y.
Proof.
  destruct y as [[[y0 y1] y2] y3].
  unfold quarterround_undo, Spec.quarterround. cbv zeta.
  by rewrite !lxor_cancel.
Qed.

(** Writing back the four words a state holds changes nothing. *)
Lemma insert4_same (a b c d : nat) (st : list Z) (u0 u1 u2 u3 : Z) :
  distinct4 a b c d ->
  (a < length st)%nat -> (b < length st)%nat ->
  (c < length st)%nat -> (d < length st)%nat ->
  <[a := st !!! a]> (<[b := st !!! b]> (<[c := st !!! c]> (<[d := st !!! d]>
    (<[a := u0]> (<[b := u1]> (<[c := u2]> (<[d := u3]> st))))))) = st.
Proof.
  intros (Hab & Hac & Had & Hbc & Hbd & Hcd) Ha Hb Hc Hd.
  apply list_eq. intros i.
  destruct (decide (i = a)) as [-> | Hia].
  { rewrite list_lookup_insert_eq by (rewrite !length_insert; lia).
    symmetry. by apply list_lookup_lookup_total_lt. }
  rewrite (list_lookup_insert_ne _ a) by done.
  destruct (decide (i = b)) as [-> | Hib].
  { rewrite list_lookup_insert_eq by (rewrite !length_insert; lia).
    symmetry. by apply list_lookup_lookup_total_lt. }
  rewrite (list_lookup_insert_ne _ b) by done.
  destruct (decide (i = c)) as [-> | Hic].
  { rewrite list_lookup_insert_eq by (rewrite !length_insert; lia).
    symmetry. by apply list_lookup_lookup_total_lt. }
  rewrite (list_lookup_insert_ne _ c) by done.
  destruct (decide (i = d)) as [-> | Hid].
  { rewrite list_lookup_insert_eq by (rewrite !length_insert; lia).
    symmetry. by apply list_lookup_lookup_total_lt. }
  by rewrite !list_lookup_insert_ne by done.
Qed.

Lemma on4_undo f g (a b c d : nat) (st : list Z) :
  (forall t, g (f t) = t) ->
  distinct4 a b c d ->
  (a < length st)%nat -> (b < length st)%nat ->
  (c < length st)%nat -> (d < length st)%nat ->
  on4 g a b c d (on4 f a b c d st) = st.
Proof.
  intros Hgf Hdis Ha Hb Hc Hd.
  pose proof Hdis as (Hab & Hac & Had & Hbc & Hbd & Hcd).
  unfold on4 at 2.
  destruct (f _) as [[[z0 z1] z2] z3] eqn:Hf.
  unfold on4.
  rewrite list_lookup_total_insert_eq by (rewrite !length_insert; lia).
  rewrite (list_lookup_total_insert_ne _ a b) by done.
  rewrite (list_lookup_total_insert_eq _ b) by (rewrite !length_insert; lia).
  rewrite (list_lookup_total_insert_ne _ a c), (list_lookup_total_insert_ne _ b c) by done.
  rewrite (list_lookup_total_insert_eq _ c) by (rewrite !length_insert; lia).
  rewrite (list_lookup_total_insert_ne _ a d), (list_lookup_total_insert_ne _ b d),
    (list_lookup_total_insert_ne _ c d) by done.
  rewrite (list_lookup_total_insert_eq _ d) by lia.
  rewrite <- Hf, Hgf. by apply insert4_same.
Qed.

Lemma on4_injective f g (a b c d : nat) (st1 st2 : list Z) :
  (forall t, g (f t) = t) ->
  distinct4 a b c d ->
  (a < length st1)%nat -> (b < length st1)%nat ->
  (c < length st1)%nat -> (d < length st1)%nat ->
  length st1 = length st2 ->
  on4 f a b c d st1 = on4 f a b c d st2 -> st1 = st2.
Proof.
  intros Hgf Hdis Ha Hb Hc Hd Hlen Heq.
  rewrite <- (on4_undo f g a b c d st1) by done.
  rewrite <- (on4_undo f g a b c d st2) by (done || lia).
  by rewrite Heq.
Qed.

(** X3.  Through four pointers to distinct words of one array,
    [s20_quarterround] is injective: two arrays it maps to the same array
    are the same array. *)
Theorem s20_quarterround_injective (y0 y1 y2 y3 : Z) (st1 st2 : list Z) :
  0 <= y0 < Z.of_nat (length st1) -> 0 <= y1 < Z.of_nat (length st1) ->
  0 <= y2 < Z.of_nat (length st1) -> 0 <= y3 < Z.of_nat (length st1) ->
  y0 <> y1 -> y0 <> y2 -> y0 <> y3 -> y1 <> y2 -> y1 <> y3 -> y2 <> y3 ->
  length st1 = length st2 ->
  s20_quarterround y0 y1 y2 y3 st1 = s20_quarterround y0 y1 y2 y3 st2 ->
  st1 = st2.
Proof.
  intros H0 H1 H2 H3 H01 H02 H03 H12 H13 H23 Hlen Heq.
  rewrite <- (Z2Nat.id y0), <- (Z2Nat.id y1), <- (Z2Nat.id y2), <- (Z2Nat.id y3)
    in Heq by lia.
  assert (distinct4 (Z.to_nat y0) (Z.to_nat y1) (Z.to_nat y2) (Z.to_nat y3))
    as Hdis by (unfold distinct4; lia).
  rewrite (s20_quarterround_on _ _ _ _ st1) in Heq by (done || lia).
  rewrite (s20_quarterround_on _ _ _ _ st2) in Heq by (done || lia).
  rewrite !quarterround_on_on4 in Heq.
  apply (on4_injective _ quarterround_undo) in Heq; try done; try lia.
  apply quarterround_undo_quarterround.
Qed.

Lemma s20_quarterround_injective_witness : replicate 16 1 = replicate 16 1.
Proof.
  apply (s20_quarterround_injective 5 6 7 4 (replicate 16 1) (replicate 16 1));
    try (simpl; lia); reflexivity.
Defined.

Lemma s20_rowround_injective (st1 st2 : list Z) :
  length st1 = 16%nat -> length st2 = 16%nat ->
  s20_rowround st1 = s20_rowround st2 -> st1 = st2.
Proof.
  intros Hl1 Hl2 Heq.
  rewrite !s20_rowround_on, !quarterround_on_on4 in Heq by done.
  pose proof quarterround_undo_quarterround as Hu.
  apply (on4_injective _ _ _ _ _ _ _ _ Hu) in Heq;
    [| unfold distinct4; lia | rewrite ?length_on4, ?length_quarterround_on; lia ..].
  apply (on4_injective _ _ _ _ _ _ _ _ Hu) in Heq;
    [| unfold distinct4; lia | rewrite ?length_on4, ?length_quarterround_on; lia ..].
  apply (on4_injective _ _ _ _ _ _ _ _ Hu) in Heq;
    [| unfold distinct4; lia | rewrite ?length_on4, ?length_quarterround_on; lia ..].
  apply (on4_injective _ _ _ _ _ _ _ _ Hu) in Heq;
    [done | unfold distinct4; lia | rewrite ?length_on4, ?length_quarterround_on; lia ..].
Qed.

Lemma s20_columnround_injective (st1 st2 : list Z) :
  length st1 = 16%nat -> length st2 = 16%nat ->
  s20_columnround st1 = s20_columnround st2 -> st1 = st2.
Proof.
  intros Hl1 Hl2 Heq.
  rewrite !s20_columnround_on, !quarterround_on_on4 in Heq by done.
  pose proof quarterround_undo_quarterround as Hu.
  apply (on4_injective _ _ _ _ _ _ _ _ Hu) in Heq;
    [| unfold distinct4; lia | rewrite ?length_on4, ?length_quarterround_on; lia ..].
  apply (on4_injective _ _ _ _ _ _ _ _ Hu) in Heq;
    [| unfold distinct4; lia | rewrite ?length_on4, ?length_quarterround_on; lia ..].
  apply (on4_injective _ _ _ _ _ _ _ _ Hu) in Heq;
    [| unfold distinct4; lia | rewrite ?length_on4, ?length_quarterround_on; lia ..].
  apply (on4_injective _ _ _ _ _ _ _ _ Hu) in Heq;
    [done | unfold distinct4; lia | rewrite ?length_on4, ?length_quarterround_on; lia ..].
Qed.

Lemma s20_doubleround_eq (st : list Z) :
  s20_doubleround st = s20_rowround (s20_columnround st).
Proof. reflexivity. Qed.

Lemma s20_doubleround_injective (st1 st2 : list Z) :
  length st1 = 16%nat -> length st2 = 16%nat ->
  s20_doubleround st1 = s20_doubleround st2 -> st1 = st2.
Proof.
  intros Hl1 Hl2 Heq. rewrite !s20_doubleround_eq in Heq.
  apply s20_columnround_injective; [done | done |].
  apply s20_rowround_injective; [| | done];
    by rewrite length_s20_columnround.
Qed.

Lemma iter_doubleround_injective (k : nat) (st1 st2 : list Z) :
  length st1 = 16%nat -> length st2 = 16%nat ->
  Nat.iter k s20_doubleround st1 = Nat.iter k s20_doubleround st2 -> st1 = st2.
Proof.
  intros Hl1 Hl2. induction k as [| k IH]; [done |].
  rewrite !Nat.iter_succ. intros Heq. apply IH.
  apply s20_doubleround_injective; [| | done];
    by rewrite length_iter_doubleround.
Qed.

(** X4.  On 16-word states [s20_rowround], [s20_columnround],
    [s20_doubleround] and the 10 double rounds of the Core Hash are
    injective: the 20 rounds alone lose no information about the state. *)
Theorem s20_rounds_injective (st1 st2 : list Z) :
  length st1 = 16%nat -> length st2 = 16%nat ->
  (s20_rowround st1 = s20_rowround st2 -> st1 = st2) /\
  (s20_columnround st1 = s20_columnround st2 -> st1 = st2) /\
  (s20_doubleround st1 = s20_doubleround st2 -> st1 = st2) /\
  (Nat.iter 10 s20_doubleround st1 = Nat.iter 10 s20_doubleround st2 -> st1 = st2).
Proof.
  intros Hl1 Hl2. split; [by apply s20_rowround_injective |].
  split; [by apply s20_columnround_injective |].
  split; [by apply s20_doubleround_injective |].
  by apply iter_doubleround_injective.
Qed.

Lemma s20_rounds_injective_witness : replicate 16 1 = replicate 16 1.
Proof.
  exact (proj1 (proj2 (proj2
           (s20_rounds_injective (replicate 16 1) (replicate 16 1) eq_refl eq_refl)))
         eq_refl).
Defined.

(** *** Rows and columns *)

Lemma length_transpose (st : list Z) : length (transpose st) = 16%nat.
Proof. reflexivity. Qed.

(** X5.  On a 16-word state read as a 4 x 4 matrix, [s20_columnround] is
    [s20_rowround] on the transposed matrix, transposed back. *)
Theorem s20_columnround_transpose (st : list Z) :
  length st = 16%nat ->
  s20_columnround st = transpose (s20_rowround (transpose st)).
Proof.
  intros Hl.
  rewrite s20_columnround_on by done.
  rewrite s20_rowround_on by apply length_transpose.
  explode st Hl. unfold Spec.quarterround_on.
  generalize Spec.quarterround. intros f.
  destruct (f (z, z3, z7, z11)) as [[[a0 a4] a8] a12] eqn:E1.
  destruct (f (z4, z8, z12, z0)) as [[[a5 a9] a13] a1] eqn:E2.
  destruct (f (z9, z13, z1, z5)) as [[[a10 a14] a2] a6] eqn:E3.
  destruct (f (z14, z2, z6, z10)) as [[[a15 a3] a7] a11] eqn:E4.
  unfold transpose; cbn; rewrite E1; cbn; rewrite E2; cbn; rewrite E3; cbn;
    rewrite E4; cbn.
  reflexivity.
Qed.

Lemma s20_columnround_transpose_witness :
  s20_columnround (seqZ 0 16) = transpose (s20_rowround (transpose (seqZ 0 16))).
Proof. apply s20_columnround_transpose. reflexivity. Defined.

(** *** What the Core Hash and Block Expansion read and write *)

Lemma s20_hash_store_ge (x z0 seq0 : list Z) :
  length z0 = 16%nat -> (64 <= length seq0)%nat ->
  for_loop 0 16 1 (fun i '(z, seq) =>
      let z := set z i (u32 (get z i + get x i)) in
      let seq := at_ptr seq (4 * i) (fun b => s20_rev_littleendian b (get z i)) in
      (z, seq)) (z0, seq0)
  = (map (fun j => u32 (get z0 j + get x j)) (seqZ 0 16),
     Spec.bytes_of_words (map (fun j => u32 (get z0 j + get x j)) (seqZ 0 16))
       ++ drop 64 seq0).
Proof.
  intros Hz Hseq.
  set (g := fun j => u32 (get z0 j + get x j)).
  match goal with |- for_loop _ _ _ ?b _ = _ => set (body := b) end.
  pose (P := fun (i : Z) (st : list Z * list Z) =>
    st = (map g (seqZ 0 i) ++ drop (Z.to_nat i) z0,
          Spec.bytes_of_words (map g (seqZ 0 i)) ++ drop (Z.to_nat (4 * i)) seq0)).
  assert (P 16 (for_loop 0 16 1 body (z0, seq0))) as HP.
  { apply for_loop_inv; [lia | done |].
    intros i [z seq] Hi HPi. unfold P in *. injection HPi as -> ->.
    assert (length (map g (seqZ 0 i)) = Z.to_nat i) as Hl
      by (rewrite length_map, length_seqZ; done).
    assert (length (Spec.bytes_of_words (map g (seqZ 0 i))) = Z.to_nat (4 * i)) as Hb
      by (rewrite length_bytes_of_words, Hl; lia).
    unfold body. cbv zeta.
    rewrite (get_app_drop _ z0) by (try done; lia).
    rewrite (set_app_drop _ z0) by (try done; lia).
    rewrite get_app_mid by (try done; lia).
    fold (g i). rewrite seqZ_snoc, map_app by lia. cbn [map].
    f_equal. unfold at_ptr.
    rewrite take_app_length', drop_app_length' by done.
    destruct (drop_four seq0 (Z.to_nat (4 * i)) ltac:(lia))
      as (b0 & b1 & b2 & b3 & Hd).
    rewrite Hd, s20_rev_littleendian_cons, bytes_of_words_snoc, <- app_assoc.
    do 3 f_equal. lia. }
  unfold P in HP. rewrite HP.
  rewrite (drop_ge z0), app_nil_r by lia. done.
Qed.

Lemma s20_hash_from_ge (x0 z0 seq : list Z) :
  length x0 = 16%nat -> length z0 = 16%nat -> (64 <= length seq)%nat ->
  s20_hash_from x0 z0 seq =
  let x := map (fun j => s20_littleendian (ptr seq (4 * j))) (seqZ 0 16) in
  let z := Nat.iter 10 s20_doubleround x in
  Spec.bytes_of_words (map (fun j => u32 (get z j + get x j)) (seqZ 0 16))
    ++ drop 64 seq.
Proof.
  intros Hx Hz Hseq. unfold s20_hash_from.
  rewrite s20_hash_load by done.
  rewrite (for_loop_ten s20_doubleround).
  rewrite s20_hash_store_ge;
    [done | by rewrite length_iter_doubleround, length_map, length_seqZ | done].
Qed.

Lemma s20_littleendian_ptr_app (s rest : list Z) (off : Z) :
  0 <= off -> off + 4 <= Z.of_nat (length s) ->
  s20_littleendian (ptr (s ++ rest) off) = s20_littleendian (ptr s off).
Proof.
  intros Ho Hl. unfold s20_littleendian. rewrite !get_ptr by lia.
  unfold get. by rewrite !lookup_total_app_l by lia.
Qed.

Lemma s20_hash_from_app (x0 z0 s rest : list Z) :
  length x0 = 16%nat -> length z0 = 16%nat -> length s = 64%nat ->
  s20_hash_from x0 z0 (s ++ rest) = s20_hash s ++ rest.
Proof.
  intros Hx Hz Hs. unfold s20_hash.
  rewrite s20_hash_from_ge by (rewrite ?length_app; done || lia).
  rewrite (s20_hash_from_eq _ _ s) by done. cbv zeta.
  rewrite drop_app_length' by done.
  assert (map (fun j => s20_littleendian (ptr (s ++ rest) (4 * j))) (seqZ 0 16) =
          map (fun j => s20_littleendian (ptr s (4 * j))) (seqZ 0 16)) as ->; [| done].
  apply map_ext_in. intros j Hj. apply list_elem_of_In, elem_of_seqZ in Hj.
  apply s20_littleendian_ptr_app; lia.
Qed.

(** X6.  [s20_hash] never uses what its local arrays [x] and [z] hold before
    it fills them, and it touches the first 64 bytes of [seq] only: on an
    array of 64 bytes followed by anything, the result is the hash of the 64
    bytes followed by the rest unchanged. *)
Theorem s20_hash_footprint (x0 z0 s rest : list Z) :
  length x0 = 16%nat -> length z0 = 16%nat -> length s = 64%nat ->
  s20_hash_from x0 z0 (s ++ rest) = s20_hash s ++ rest.
Proof. apply s20_hash_from_app. Qed.

Lemma s20_hash_footprint_witness :
  s20_hash_from (replicate 16 7) (replicate 16 9) (replicate 64 1 ++ [5; 6]) =
  s20_hash (replicate 64 1) ++ [5; 6].
Proof. by apply s20_hash_footprint. Defined.

Lemma s20_expand32_app_rest (k32 kt n16 nt keystream rest : list Z) :
  length k32 = 32%nat -> length n16 = 16%nat -> length keystream = 64%nat ->
  s20_expand32 (k32 ++ kt) (n16 ++ nt) (keystream ++ rest) =
  s20_hash (Spec.prehash k32 n16) ++ rest.
Proof.
  intros Hk Hn Hks.
  rewrite <- (s20_hash_from_app (replicate 16 0) (replicate 16 0))
    by (done || by apply length_prehash).
  unfold s20_expand32, s20_hash. cbv zeta. f_equal.
  explode k32 Hk. explode n16 Hn. explode keystream Hks.
  vm_compute. reflexivity.
Qed.

(** X7.  [s20_expand32] reads the first 32 bytes at [k] and the first 16 at
    [n] and nothing else, uses nothing of what [keystream] held before, and
    writes the first 64 bytes of [keystream] only. *)
Theorem s20_expand32_footprint (k n keystream keystream' rest : list Z) :
  (32 <= length k)%nat -> (16 <= length n)%nat ->
  length keystream = 64%nat -> length keystream' = 64%nat ->
  s20_expand32 k n (keystream ++ rest) =
  s20_expand32 (take 32 k) (take 16 n) keystream' ++ rest.
Proof.
  intros Hk Hn Hks Hks'.
  rewrite <- (take_drop 32 k) at 1. rewrite <- (take_drop 16 n) at 1.
  rewrite s20_expand32_app_rest by (rewrite ?length_take; lia).
  rewrite (s20_expand32_eq (take 32 k))
    by (rewrite ?length_take; lia).
  by rewrite !take_take, !Nat.min_id.
Qed.

Lemma s20_expand32_footprint_witness :
  s20_expand32 (example_key ++ [1]) (replicate 16 0 ++ [2]) (replicate 64 3 ++ [4]) =
  s20_expand32 (take 32 (example_key ++ [1])) (take 16 (replicate 16 0 ++ [2]))
    (replicate 64 0) ++ [4].
Proof. apply s20_expand32_footprint; simpl; lia. Defined.

(** *** Calls of the stream driver *)

Lemma for_loop_ext {S} (a b k : Z) (body1 body2 : Z -> S -> S) (s : S) :
  (forall i s, body1 i s = body2 i s) ->
  for_loop a b k body1 s = for_loop a b k body2 s.
Proof.
  intros Hext. unfold for_loop.
  generalize (Z.to_nat ((b - a + k - 1) / k)) as c. intros c.
  revert a s. induction c as [| c IH]; intros a s; [done |].
  cbn [iter_from]. by rewrite Hext, IH.
Qed.

Lemma s20_crypt_step_si (key si si' buf i : Z) (st : list Z * list Z * list Z) :
  si mod 64 = si' mod 64 ->
  s20_crypt_step key si buf i st = s20_crypt_step key si' buf i st.
Proof.
  intros Hsi. destruct st as [[n ks] m]. unfold s20_crypt_step.
  rewrite !u32_mod_64.
  rewrite <- (Z.add_mod_idemp_l si), <- (Z.add_mod_idemp_l si') by lia.
  by rewrite Hsi.
Qed.

Lemma s20_crypt_si (key nonce si si' buf buflen : Z) (mem : list Z) :
  si mod 64 = si' mod 64 ->
  s20_crypt key nonce si buf buflen mem = s20_crypt key nonce si' buf buflen mem.
Proof.
  intros Hsi. unfold s20_crypt, s20_crypt_from. cbv zeta.
  by rewrite (for_loop_ext _ _ _ _ (s20_crypt_step key si' buf))
    by (intros; by apply s20_crypt_step_si).
Qed.

(** X8.  [s20_crypt] uses [si] modulo 64 only: two calls whose [si] differ
    by a multiple of 64 do the same, so [si] selects a byte inside a
    keystream block and never a block. *)
Theorem s20_crypt_si_mod_64 (key nonce si si' buf buflen : Z) (mem : list Z) :
  si mod 64 = si' mod 64 ->
  s20_crypt key nonce si buf buflen mem = s20_crypt key nonce si' buf buflen mem.
Proof. apply s20_crypt_si. Qed.

Lemma s20_crypt_si_mod_64_witness :
  s20_crypt 0 32 5 40 70 example_mem = s20_crypt 0 32 (5 + 64 * 3) 40 70 example_mem.
Proof. apply s20_crypt_si_mod_64. reflexivity. Defined.

(** X9.  [s20_crypt] never uses what its local array [keystream] holds
    before the first block is generated. *)
Theorem s20_crypt_locals (keystream keystream' : list Z)
    (key nonce si buf buflen : Z) (mem : list Z) :
  valid_call key nonce si buf buflen mem ->
  length keystream = 64%nat -> length keystream' = 64%nat ->
  s20_crypt_from keystream key nonce si buf buflen mem =
  s20_crypt_from keystream' key nonce si buf buflen mem.
Proof.
  intros Hcall Hks Hks'. by rewrite !s20_crypt_from_any.
Qed.

Lemma s20_crypt_locals_witness :
  s20_crypt_from (replicate 64 1) 0 32 5 40 70 example_mem =
  s20_crypt_from (replicate 64 2) 0 32 5 40 70 example_mem.
Proof. by apply (s20_crypt_locals _ _ _ _ _ _ _ _ example_valid). Defined.

(** A call on a part of the buffer of a valid call is valid. *)
Lemma valid_call_part (key nonce si si' buf buflen a b : Z) (mem : list Z) :
  valid_call key nonce si buf buflen mem ->
  0 <= a -> 0 <= b -> a + b <= buflen -> 0 <= si' < 2 ^ 32 ->
  valid_call key nonce si' (buf + a) b mem.
Proof.
  intros [Hb Hk Hn Hbuf Hbl Hsi Hkb Hnb] Ha Hb' Hab Hsi'.
  unfold apart in *. split; unfold apart; try done; lia.
Qed.

Lemma valid_call_after (key nonce si buf buflen : Z) (mem : list Z)
    (key' nonce' si' buf' buflen' : Z) :
  valid_call key nonce si buf buflen mem ->
  valid_call key' nonce' si' buf' buflen' mem ->
  valid_call key nonce si buf buflen (s20_crypt key' nonce' si' buf' buflen' mem).
Proof.
  intros Hcall Hcall'.
  destruct (s20_crypt_from_inv _ _ _ _ _ _ Hcall' (replicate 64 0) eq_refl)
    as (Hl & Hb & _ & _).
  by apply (valid_call_apart _ _ _ _ _ mem).
Qed.

(** X10.  The bytes [s20_crypt] writes do not depend on how many bytes
    follow: a call on the first [l] bytes of the buffer and a call on all
    [buflen] bytes leave the same memory, except for the bytes
    [buf[l .. buflen)] that the shorter call does not reach. *)
Theorem s20_crypt_prefix (key nonce si buf buflen l : Z) (mem : list Z) (a : Z) :
  valid_call key nonce si buf buflen mem ->
  0 <= l <= buflen ->
  0 <= a -> ~ (buf + l <= a < buf + buflen) ->
  get (s20_crypt key nonce si buf l mem) a =
  get (s20_crypt key nonce si buf buflen mem) a.
Proof.
  intros Hcall Hl Ha Hout.
  assert (valid_call key nonce si buf l mem) as Hcall'.
  { replace buf with (buf + 0) at 1 by lia.
    apply (valid_call_part key nonce si si buf buflen 0 l mem); try done; try lia.
    by destruct Hcall. }
  destruct (s20_crypt_from_inv _ _ _ _ _ _ Hcall (replicate 64 0) eq_refl)
    as (_ & _ & Hf & _).
  destruct (s20_crypt_from_inv _ _ _ _ _ _ Hcall' (replicate 64 0) eq_refl)
    as (_ & _ & Hf' & _).
  fold (s20_crypt key nonce si buf buflen mem) in Hf.
  fold (s20_crypt key nonce si buf l mem) in Hf'.
  destruct (Z_lt_ge_dec a buf) as [Hlo | Hlo];
    [rewrite Hf, Hf' by lia; done |].
  destruct (Z_lt_ge_dec a (buf + l)) as [Hhi | Hhi];
    [| rewrite Hf, Hf' by lia; done].
  replace a with (buf + (a - buf)) by lia.
  by rewrite !s20_crypt_byte by (done || lia).
Qed.

Lemma s20_crypt_prefix_witness :
  get (s20_crypt 0 32 5 40 10 example_mem) 45 =
  get (s20_crypt 0 32 5 40 70 example_mem) 45.
Proof. apply s20_crypt_prefix; [apply example_valid | lia ..]. Defined.

(** The bytes a call reads at [key] and [nonce] survive a valid call. *)
Lemma s20_crypt_reads (key nonce si buf buflen : Z) (mem : list Z) :
  valid_call key nonce si buf buflen mem ->
  key_of key (s20_crypt key nonce si buf buflen mem) = key_of key mem /\
  nonce_of nonce (s20_crypt key nonce si buf buflen mem) = nonce_of nonce mem.
Proof.
  intros Hcall.
  exact (s20_crypt_from_reads (replicate 64 0) _ _ _ _ _ _ Hcall eq_refl).
Qed.

Lemma s20_crypt_outside (key nonce si buf buflen : Z) (mem : list Z) (a : Z) :
  valid_call key nonce si buf buflen mem ->
  0 <= a -> ~ (buf <= a < buf + buflen) ->
  get (s20_crypt key nonce si buf buflen mem) a = get mem a.
Proof.
  intros Hcall Ha Hout.
  destruct (s20_crypt_from_inv _ _ _ _ _ _ Hcall (replicate 64 0) eq_refl)
    as (_ & _ & Hf & _).
  by apply Hf.
Qed.

Lemma length_s20_crypt (key nonce si buf buflen : Z) (mem : list Z) :
  valid_call key nonce si buf buflen mem ->
  length (s20_crypt key nonce si buf buflen mem) = length mem.
Proof.
  intros Hcall.
  by destruct (s20_crypt_from_inv _ _ _ _ _ _ Hcall (replicate 64 0) eq_refl)
    as (Hl & _).
Qed.

Lemma lxor_mask (m k : Z) : Z.lxor (Z.lxor m k) m = k.
Proof. by rewrite (Z.lxor_comm m k), lxor_cancel. Qed.

(** X11.  A second call of [s20_crypt] on the bytes that follow those of a
    first call starts again at block counter 0: with the same [si], byte [j]
    of the second part is xored with the very keystream byte that byte [j]
    of the first part was xored with. *)
Theorem s20_crypt_restart (key nonce si buf a b : Z) (mem : list Z) (j : Z) :
  valid_call key nonce si buf (a + b) mem ->
  0 <= a -> 0 <= b -> 0 <= j -> j < a -> j < b ->
  let mem1 := s20_crypt key nonce si buf a mem in
  let mem2 := s20_crypt key nonce si (buf + a) b mem1 in
  Z.lxor (get mem2 (buf + a + j)) (get mem (buf + a + j)) =
  Z.lxor (get mem2 (buf + j)) (get mem (buf + j)).
Proof.
  intros Hcall Ha Hb Hj Hja Hjb mem1 mem2.
  assert (0 <= si < 2 ^ 32) as Hsi by (by destruct Hcall).
  assert (0 <= buf) as Hbuf by (destruct Hcall as [_ _ _ [? _] _ _ _ _]; done).
  assert (valid_call key nonce si buf a mem) as Hc1.
  { replace buf with (buf + 0) at 1 by lia.
    apply (valid_call_part key nonce si si buf (a + b) 0 a mem); done || lia. }
  assert (valid_call key nonce si (buf + a) b mem) as Hc2
    by (apply (valid_call_part key nonce si si buf (a + b) a b mem); done || lia).
  assert (valid_call key nonce si (buf + a) b mem1) as Hc2'
    by (by apply valid_call_after).
  destruct (s20_crypt_reads _ _ _ _ _ _ Hc1) as [HK HN].
  fold mem1 in HK, HN. subst mem2.
  rewrite s20_crypt_byte by (done || lia).
  rewrite (s20_crypt_outside _ _ _ (buf + a)) by (done || lia).
  rewrite HK, HN. subst mem1.
  rewrite (s20_crypt_outside _ _ _ buf a mem (buf + a + j)) by (done || lia).
  rewrite (s20_crypt_byte _ _ _ buf) by (done || lia).
  by rewrite !lxor_mask.
Qed.

Lemma s20_crypt_restart_witness :
  Z.lxor (get (s20_crypt 0 32 5 (40 + 30) 40 (s20_crypt 0 32 5 40 30 example_mem))
            (40 + 30 + 7))
         (get example_mem (40 + 30 + 7)) =
  Z.lxor (get (s20_crypt 0 32 5 (40 + 30) 40 (s20_crypt 0 32 5 40 30 example_mem))
            (40 + 7))
         (get example_mem (40 + 7)).
Proof.
  apply (s20_crypt_restart 0 32 5 40 30 40 example_mem 7); [apply example_valid | lia ..].
Defined.

(** X12.  Inside the first keystream block calls compose: when [a + b <= 64],
    a call on the first [a] bytes followed by a call on the next [b] bytes
    with [si + a] does what one call on the [a + b] bytes does. *)
Theorem s20_crypt_first_block (key nonce si buf a b : Z) (mem : list Z) :
  valid_call key nonce si buf (a + b) mem ->
  0 <= a -> 0 <= b -> a + b <= 64 ->
  s20_crypt key nonce (si + a) (buf + a) b (s20_crypt key nonce si buf a mem) =
  s20_crypt key nonce si buf (a + b) mem.
Proof.
  intros Hcall Ha Hb Hab.
  assert (0 <= si < 2 ^ 32) as Hsi by (by destruct Hcall).
  assert (0 <= buf) as Hbuf by (destruct Hcall as [_ _ _ [? _] _ _ _ _]; done).
  rewrite (s20_crypt_si key nonce (si + a) ((si + a) mod 64))
    by (by rewrite Z.mod_mod by lia).
  pose proof (Z.mod_pos_bound (si + a) 64 ltac:(lia)) as Hm.
  assert (valid_call key nonce si buf a mem) as Hc1.
  { replace buf with (buf + 0) at 1 by lia.
    apply (valid_call_part key nonce si si buf (a + b) 0 a mem); done || lia. }
  assert (valid_call key nonce ((si + a) mod 64) (buf + a) b mem) as Hc2
    by (apply (valid_call_part key nonce si _ buf (a + b) a b mem); done || lia).
  pose proof (valid_call_after _ _ _ _ _ _ _ _ _ _ _ Hc2 Hc1) as Hc2'.
  destruct (s20_crypt_reads _ _ _ _ _ _ Hc1) as [HK HN].
  apply list_eq_get; [by rewrite !length_s20_crypt |].
  intros x Hx.
  destruct (Z_lt_ge_dec x buf) as [Hlo | Hlo];
    [by rewrite !s20_crypt_outside by (done || lia) |].
  destruct (Z_lt_ge_dec x (buf + a + b)) as [Hhi | Hhi];
    [| by rewrite !s20_crypt_outside by (done || lia)].
  destruct (Z_lt_ge_dec x (buf + a)) as [Hmid | Hmid].
  - rewrite (s20_crypt_outside _ _ _ (buf + a)) by (done || lia).
    replace x with (buf + (x - buf)) by lia.
    by rewrite !s20_crypt_byte by (done || lia).
  - set (j := x - buf - a). replace x with (buf + a + j) by lia.
    rewrite s20_crypt_byte by (done || lia).
    rewrite (s20_crypt_outside _ _ _ buf a) by (done || lia).
    replace (buf + a + j) with (buf + (a + j)) by lia.
    rewrite (s20_crypt_byte _ _ _ buf (a + b)) by (done || lia).
    rewrite HK, HN.
    rewrite (Z.div_small j 64), (Z.div_small (a + j) 64) by lia.
    rewrite Z.add_mod_idemp_l by lia.
    replace (si + a + j) with (si + (a + j)) by lia. reflexivity.
Qed.

Lemma s20_crypt_first_block_witness :
  s20_crypt 0 32 (5 + 20) (40 + 20) 30 (s20_crypt 0 32 5 40 20 example_mem) =
  s20_crypt 0 32 5 40 (20 + 30) example_mem.
Proof.
  apply (s20_crypt_first_block 0 32 5 40 20 30 example_mem); try lia.
  apply (valid_call_part 0 32 5 5 40 70 0 50 example_mem example_valid); lia.
Defined.

(** *** The demonstration program *)

Lemma s20_crypt_twice (key nonce si buf buflen : Z) (mem : list Z) :
  valid_call key nonce si buf buflen mem ->
  s20_crypt key nonce si buf buflen (s20_crypt key nonce si buf buflen mem) = mem.
Proof.
  intros Hcall.
  pose proof (valid_call_after _ _ _ _ _ _ _ _ _ _ _ Hcall Hcall) as Hcall'.
  destruct (s20_crypt_reads _ _ _ _ _ _ Hcall) as [HK HN].
  assert (0 <= buf) as Hbuf by (destruct Hcall as [_ _ _ [? _] _ _ _ _]; done).
  apply list_eq_get; [by rewrite !length_s20_crypt |].
  intros x Hx.
  destruct (Z_lt_ge_dec x buf) as [Hlo | Hlo];
    [by rewrite !s20_crypt_outside by (done || lia) |].
  destruct (Z_lt_ge_dec x (buf + buflen)) as [Hhi | Hhi];
    [| by rewrite !s20_crypt_outside by (done || lia)].
  replace x with (buf + (x - buf)) by lia.
  rewrite !s20_crypt_byte by (done || lia).
  rewrite HK, HN. apply lxor_cancel.
Qed.

Lemma for_loop_fill (f : Z -> Z) (n : Z) (a : list Z) :
  0 <= n -> length a = Z.to_nat n ->
  for_loop 0 n 1 (fun i a => set a i (f i)) a = map f (seqZ 0 n).
Proof.
  intros Hn Ha.
  pose (P := fun (i : Z) (b : list Z) =>
    b = map f (seqZ 0 i) ++ drop (Z.to_nat i) a).
  assert (P n (for_loop 0 n 1 (fun i a => set a i (f i)) a)) as HP.
  { apply for_loop_inv; [lia | done |].
    intros i b Hi HPi. unfold P in *. subst b.
    rewrite set_app_drop by (rewrite ?length_map, ?length_seqZ; lia).
    by rewrite seqZ_snoc, map_app by lia. }
  unfold P in HP. rewrite HP, drop_ge, app_nil_r by lia. done.
Qed.

Lemma for_loop_print {A} (g : Z -> A) (n : Z) (out : list A) :
  0 <= n ->
  for_loop 0 n 1 (fun i out => out ++ [g i]) out = out ++ map g (seqZ 0 n).
Proof.
  intros Hn.
  pose (P := fun (i : Z) (o : list A) => o = out ++ map g (seqZ 0 i)).
  assert (P n (for_loop 0 n 1 (fun i out => out ++ [g i]) out)) as HP; [| done].
  apply for_loop_inv; [lia | unfold P; cbn; by rewrite app_nil_r |].
  intros i o Hi HPi. unfold P in *. subst o.
  by rewrite seqZ_snoc, map_app, app_assoc by lia.
Qed.

Lemma strlen_range (s : list Z) : 0 <= strlen s <= Z.of_nat (length s).
Proof.
  induction s as [| c s IH]; [simpl; lia |].
  cbn [strlen length]. destruct (c =? 0); lia.
Qed.

Lemma map_get_take {B} (s : list Z) (n : Z) (f : Z -> B) :
  0 <= n <= Z.of_nat (length s) ->
  map (fun i => f (get s i)) (seqZ 0 n) = map f (take (Z.to_nat n) s).
Proof.
  intros Hn. rewrite <- (map_map (get s) f). f_equal.
  replace (take (Z.to_nat n) s) with (take (Z.to_nat n) (ptr s 0)) by done.
  by rewrite take_ptr by lia.
Qed.

Lemma key_of_app (k rest : list Z) :
  length k = 32%nat -> key_of 0 (k ++ rest) = k.
Proof. intros Hk. unfold key_of, ptr. cbn [Z.to_nat drop]. by apply take_app_length'. Qed.

Lemma nonce_of_app (k nn rest : list Z) :
  length k = 32%nat -> length nn = 8%nat -> nonce_of 32 (k ++ nn ++ rest) = nn.
Proof.
  intros Hk Hn. unfold nonce_of, ptr.
  rewrite drop_app_length' by (rewrite Hk; reflexivity).
  by apply take_app_length'.
Qed.

Lemma get_app_40 (k nn msg : list Z) (i : Z) :
  length k = 32%nat -> length nn = 8%nat -> 0 <= i ->
  get (k ++ nn ++ msg) (40 + i) = get msg i.
Proof.
  intros Hk Hn Hi. unfold get.
  rewrite lookup_total_app_r by lia. rewrite lookup_total_app_r by lia.
  f_equal. lia.
Qed.

(** X13.  [main], for a line of 1 to 999 chars stored in [Str]: after the
    two headings it prints, for each char of the line in order, the byte of
    the char xored with the keystream byte of its position under the key
    08 00 .. 00 and the zero nonce, and then, after the second call of
    [s20_crypt], the bytes of the line itself. *)
Theorem main_prints_message (Str : list Z) :
  length Str = 1000%nat -> 0 < strlen Str < 1000 ->
  main Str =
  [Text "Enter your message: "; Text "Encrypted message: "] ++
  map (fun i =>
         Unsigned (Z.lxor (u8 (get Str i))
                     (get (keystream_block main_key (replicate 8 0) (i / 64))
                          (i mod 64))))
      (seqZ 0 (strlen Str)) ++
  [Text (String "010" "Decrypted message: ")] ++
  map (fun c => Char (u8 c)) (take (Z.to_nat (strlen Str)) Str) ++
  [Text (String "010" EmptyString)].
Proof.
  intros HStr Hn. unfold main. cbv zeta.
  set (n := strlen Str) in *.
  rewrite (u32_of_word n) by (unfold Spec.word; lia).
  rewrite for_loop_fill by (rewrite ?length_replicate; lia).
  set (msg := map (fun i => u8 (get Str i)) (seqZ 0 n)).
  set (key := [8; 0; 0; 0; 0; 0; 0; 0; 0; 0; 0; 0; 0; 0; 0; 0;
               0; 0; 0; 0; 0; 0; 0; 0; 0; 0; 0; 0; 0; 0; 0; 0]).
  set (nonce := [0; 0; 0; 0; 0; 0; 0; 0]).
  assert (length key = 32%nat) as Hk by reflexivity.
  assert (length nonce = 8%nat) as Hno by reflexivity.
  assert (length msg = Z.to_nat n) as Hmsg
    by (unfold msg; by rewrite length_map, length_seqZ).
  assert (valid_call 0 32 0 40 n (key ++ nonce ++ msg)) as Hcall.
  { split; unfold apart; rewrite ?length_app, ?Hk, ?Hno, ?Hmsg; try lia.
    unfold Spec.bytes. repeat (apply Forall_app; split).
    - unfold key. repeat (constructor; [unfold Spec.byte; lia |]). constructor.
    - unfold nonce. repeat (constructor; [unfold Spec.byte; lia |]). constructor.
    - apply Forall_forall. intros b Hb. apply list_elem_of_In, in_map_iff in Hb.
      destruct Hb as (i & <- & _). apply u8_byte. }
  rewrite s20_crypt_twice by done.
  rewrite !for_loop_print by lia.
  rewrite <- !app_assoc. cbn [app]. do 2 f_equal.
  assert (map (fun i => Unsigned (get (s20_crypt 0 32 0 40 n (key ++ nonce ++ msg)) (40 + i)))
            (seqZ 0 n) =
          map (fun i => Unsigned (Z.lxor (u8 (get Str i))
                 (get (keystream_block main_key (replicate 8 0) (i / 64)) (i mod 64))))
            (seqZ 0 n)) as ->.
  { apply map_ext_in. intros i Hi. apply list_elem_of_In, elem_of_seqZ in Hi.
    rewrite s20_crypt_byte by (done || lia).
    rewrite key_of_app, nonce_of_app, get_app_40 by (done || lia).
    unfold msg. rewrite (get_map_seqZ (fun i => u8 (get Str i))) by lia.
    reflexivity. }
  do 2 f_equal.
  assert (map (fun i => Char (get (key ++ nonce ++ msg) (40 + i))) (seqZ 0 n) =
          map (fun i => Char (u8 (get Str i))) (seqZ 0 n)) as ->.
  { apply map_ext_in. intros i Hi. apply list_elem_of_In, elem_of_seqZ in Hi.
    rewrite get_app_40 by (done || lia).
    unfold msg. by rewrite (get_map_seqZ (fun i => u8 (get Str i))) by lia. }
  by rewrite (map_get_take Str n (fun c => Char (u8 c))) by lia.
Qed.

Lemma main_prints_message_witness :
  main ([72; 105] ++ replicate 998 0) =
  [Text "Enter your message: "; Text "Encrypted message: "] ++
  map (fun i =>
         Unsigned (Z.lxor (u8 (get ([72; 105] ++ replicate 998 0) i))
                     (get (keystream_block main_key (replicate 8 0) (i / 64))
                          (i mod 64))))
      (seqZ 0 (strlen ([72; 105] ++ replicate 998 0))) ++
  [Text (String "010" "Decrypted message: ")] ++
  map (fun c => Char (u8 c))
    (take (Z.to_nat (strlen ([72; 105] ++ replicate 998 0)))
       ([72; 105] ++ replicate 998 0)) ++
  [Text (String "010" EmptyString)].
Proof.
  apply main_prints_message; [reflexivity | vm_compute; split; reflexivity].
Defined.

(** *** No keystream byte serves twice in a call *)

Lemma bytes_of_word_inj (c1 c2 : Z) :
  Spec.word c1 -> Spec.word c2 ->
  Spec.bytes_of_word c1 = Spec.bytes_of_word c2 -> c1 = c2.
Proof.
  intros H1 H2 Heq. unfold Spec.bytes_of_word in Heq.
  injection Heq as E0 E1 E2 E3.
  rewrite <- (word_of_bytes_of_word c1), <- (word_of_bytes_of_word c2) by done.
  by rewrite E0, E1, E2, E3.
Qed.

Lemma input_field_inj (nonce : list Z) (c1 c2 : Z) :
  Spec.word c1 -> Spec.word c2 ->
  Spec.input_field nonce c1 = Spec.input_field nonce c2 -> c1 = c2.
Proof.
  intros H1 H2 Heq. unfold Spec.input_field in Heq.
  apply app_inv_head in Heq. apply app_inv_tail in Heq.
  by apply bytes_of_word_inj.
Qed.

(** X14.  In one call of [s20_crypt] no keystream byte serves twice: for two
    different positions of the buffer, either the input field [n] from which
    the block of the position was generated differs (the block counter
    [i / 64] stays below [2 ^ 26] and never wraps), or the index
    [(si + i) % 64] inside the block differs. *)
Theorem s20_crypt_no_reuse (key nonce si buf buflen : Z) (mem : list Z) (i i' : Z) :
  valid_call key nonce si buf buflen mem ->
  0 <= i < buflen -> 0 <= i' < buflen -> i <> i' ->
  (for_loop 0 (i + 1) 1 (s20_crypt_step key si buf)
     (s20_crypt_init nonce mem, replicate 64 0, mem)).1.1 <>
  (for_loop 0 (i' + 1) 1 (s20_crypt_step key si buf)
     (s20_crypt_init nonce mem, replicate 64 0, mem)).1.1 \/
  u32 (si + i) mod 64 <> u32 (si + i') mod 64.
Proof.
  intros Hcall Hi Hi' Hne.
  assert (0 <= buflen < 2 ^ 32) as Hbl by (by destruct Hcall).
  destruct (Z.eq_dec (i / 64) (i' / 64)) as [Hq | Hq].
  - right. rewrite !u32_mod_64. intros Hm. apply Hne.
    Z.div_mod_to_equations. lia.
  - left.
    destruct (crypt_inv_loop key nonce si buf buflen mem Hcall
                (replicate 64 0) (i + 1) eq_refl ltac:(lia)) as [_ _ _ _ Hb].
    destruct (crypt_inv_loop key nonce si buf buflen mem Hcall
                (replicate 64 0) (i' + 1) eq_refl ltac:(lia)) as [_ _ _ _ Hb'].
    destruct (Z.eqb_spec (i + 1) 0) as [? | _]; [lia |].
    destruct (Z.eqb_spec (i' + 1) 0) as [? | _]; [lia |].
    replace (i + 1 - 1) with i in Hb by lia.
    replace (i' + 1 - 1) with i' in Hb' by lia.
    destruct Hb as [-> _]. destruct Hb' as [-> _].
    intros Heq. apply Hq. apply input_field_inj in Heq; [done | |];
      unfold Spec.word; split;
      try (apply Z.div_pos; lia); apply Z.div_lt_upper_bound; lia.
Qed.

Lemma s20_crypt_no_reuse_witness :
  (for_loop 0 (3 + 1) 1 (s20_crypt_step 0 5 40)
     (s20_crypt_init 32 example_mem, replicate 64 0, example_mem)).1.1 <>
  (for_loop 0 (67 + 1) 1 (s20_crypt_step 0 5 40)
     (s20_crypt_init 32 example_mem, replicate 64 0, example_mem)).1.1 \/
  u32 (5 + 3) mod 64 <> u32 (5 + 67) mod 64.
Proof.
  apply (s20_crypt_no_reuse 0 32 5 40 70 example_mem 3 67 example_valid); lia.
Defined.
